(** * Text-normalisation helpers of the NLP notebook (task2.ipynb)

    The notebook has three pieces of logic of its own:

    - [convert_to_msa]: a loop of [str.replace] calls over [dialect_mapping];
    - the abbreviation loop: a loop of [re.sub(r'\b' + abbrev + r'\b', ...)]
      calls over [abbreviations];
    - [preprocess_for_sentiment]: one [re.sub] with a negated character class.

    A Python [str] is a sequence of Unicode code points, so texts are lists
    of code points.  The two library calls the notebook relies on,
    [str.replace] and [re.sub], are embedded in the modules [Str] and [Re]
    (for [re], the fragment of the pattern language the notebook uses). *)

From Stdlib Require Import Ascii String.
From Stdlib Require Import Arith NArith Bool List Lia.
Import ListNotations.

Local Open Scope bool_scope.
Local Open Scope list_scope.

(** ** Code points and texts *)

Definition codepoint := N.
Definition str := list codepoint.

(** An ASCII literal of the source as a text. *)
Definition of_ascii (s : string) : str :=
  map N_of_ascii (list_ascii_of_string s).

Arguments of_ascii s%_string_scope.

(** A Python [dict] iterated with [.items()]: the entries in insertion
    order. *)
Definition mapping := list (str * str).

(** ** Python's [str] methods used by the notebook *)

Module Str.

(** [s.startswith(p)]. *)
Fixpoint startswith (s p : str) {struct p} : bool :=
  match p with
  | [] => true
  | a :: p' =>
      match s with
      | [] => false
      | b :: s' => N.eqb a b && startswith s' p'
      end
  end.

(** The scan of [s.replace(old, new)] for a non-empty [old]: left to right,
    at each position either the text starts with [old], in which case [new]
    is emitted and the scan resumes after the occurrence ([skip] counts the
    characters of the occurrence still to be passed over), or the character
    is copied. *)
Fixpoint replace_from (old new : str) (skip : nat) (s : str) {struct s} : str :=
  match s with
  | [] => []
  | c :: s' =>
      match skip with
      | S n => replace_from old new n s'
      | O =>
          if startswith s old
          then new ++ replace_from old new (length old - 1) s'
          else c :: replace_from old new 0 s'
      end
  end.

(** [s.replace(old, new)].  With an empty [old] Python inserts [new] before
    every character and at the end. *)
Definition replace (s old new : str) : str :=
  match old with
  | [] => new ++ flat_map (fun c => c :: new) s
  | _ :: _ => replace_from old new 0 s
  end.

(** [old in s]. *)
Fixpoint contains (s old : str) {struct s} : bool :=
  startswith s old ||
  match s with
  | [] => false
  | _ :: s' => contains s' old
  end.

End Str.

(** ** The dialect normaliser

<<
def convert_to_msa(text):
    for egyptian_word, msa_word in dialect_mapping.items():
        text = text.replace(egyptian_word, msa_word)
    return text
>>
    [dialect_mapping] is a module-level variable read when the function
    runs; it is the first argument here. *)

Fixpoint convert_to_msa (dialect_mapping : mapping) (text : str) : str :=
  match dialect_mapping with
  | [] => text
  | (egyptian_word, msa_word) :: rest =>
      convert_to_msa rest (Str.replace text egyptian_word msa_word)
  end.

(** The mapping of the notebook. *)
Definition dialect_mapping : mapping :=
  [ ([0x639; 0x627; 0x64A; 0x632]%N,                 (* عايز *)
     [0x623; 0x631; 0x64A; 0x62F]%N);                (* أريد *)
    ([0x641; 0x64A; 0x646]%N,                        (* فين *)
     [0x623; 0x64A; 0x646]%N);                       (* أين *)
    ([0x647; 0x627; 0x631; 0x648; 0x62D]%N,          (* هاروح *)
     [0x633; 0x623; 0x630; 0x647; 0x628]%N);         (* سأذهب *)
    ([0x643; 0x62F; 0x647]%N,                        (* كده *)
     [0x628; 0x647; 0x630; 0x647; 0x20; 0x627; 0x644;
      0x637; 0x631; 0x64A; 0x642; 0x629]%N);         (* بهذه الطريقة *)
    ([0x62D; 0x627; 0x62C; 0x629]%N,                 (* حاجة *)
     [0x634; 0x64A; 0x621]%N) ].                     (* شيء *)

(** The sample sentence of the notebook: أنا عايز أروح فين؟ *)
Definition egyptian_arabic_text : str :=
  [0x623; 0x646; 0x627; 0x20; 0x639; 0x627; 0x64A; 0x632; 0x20;
   0x623; 0x631; 0x648; 0x62D; 0x20; 0x641; 0x64A; 0x646; 0x61F]%N.

(** ** The fragment of Python's [re] used by the notebook *)

Module Re.

(** What one pattern element that consumes a character accepts. *)
Inductive cset :=
| Lit (c : codepoint)                          (* an ordinary character *)
| Dot                                          (* [.] : anything but a newline *)
| NotIn (ranges : list (codepoint * codepoint)). (* [[^a-b...]] *)

Inductive node :=
| Char (cs : cset)    (* one character *)
| WordB               (* [\b] *)
| Plus (cs : cset).   (* one or more characters, greedy *)

Definition regex := list node.

Definition in_range (c : codepoint) (r : codepoint * codepoint) : bool :=
  N.leb (fst r) c && N.leb c (snd r).

Definition cset_matches (cs : cset) (c : codepoint) : bool :=
  match cs with
  | Lit a => N.eqb a c
  | Dot => negb (N.eqb c 10)
  | NotIn ranges => negb (existsb (in_range c) ranges)
  end.

Section Matching.

(** [str.isalnum()] on one code point outside ASCII: the Unicode character
    database, which is not part of the notebook. *)
Variable uni_alnum : codepoint -> bool.

Definition ascii_alnum (c : codepoint) : bool :=
  in_range c (48, 57)%N || in_range c (65, 90)%N || in_range c (97, 122)%N.

(** A word character of a [str] pattern: alphanumeric or the underscore. *)
Definition is_word (c : codepoint) : bool :=
  N.eqb c 95 || (if N.ltb c 128 then ascii_alnum c else uni_alnum c).

Definition word_before (prev : option codepoint) : bool :=
  match prev with
  | Some c => is_word c
  | None => false
  end.

Definition word_here (s : str) : bool :=
  match s with
  | c :: _ => is_word c
  | [] => false
  end.

(** [\b]: exactly one of the two neighbours is a word character; the edges
    of the text count as non-word. *)
Definition at_boundary (prev : option codepoint) (s : str) : bool :=
  xorb (word_before prev) (word_here s).

(** The greedy repetition [cs+] followed by the rest of the pattern, [rest]:
    it takes as many characters as it can and gives them back one at a time
    while [rest] fails; [taken] tells whether a character was taken
    already. *)
Fixpoint greedy (cs : cset) (rest : option codepoint -> str -> option nat)
  (taken : bool) (prev : option codepoint) (s : str) {struct s}
  : option nat :=
  match s with
  | c :: s' =>
      if cset_matches cs c then
        match greedy cs rest true (Some c) s' with
        | Some n => Some (S n)
        | None => if taken then rest prev s else None
        end
      else if taken then rest prev s else None
  | [] => if taken then rest prev s else None
  end.

(** The backtracking matcher: [match_here p prev s] is the length of the
    first match of [p] at the start of [s] that the engine finds, [prev]
    being the character before [s] in the text. *)
Fixpoint match_here (p : regex) (prev : option codepoint) (s : str)
  {struct p} : option nat :=
  match p with
  | [] => Some 0
  | WordB :: p' =>
      if at_boundary prev s then match_here p' prev s else None
  | Char cs :: p' =>
      match s with
      | c :: s' =>
          if cset_matches cs c
          then option_map S (match_here p' (Some c) s')
          else None
      | [] => None
      end
  | Plus cs :: p' => greedy cs (match_here p') false prev s
  end.

(** The loop of [re.sub(p, repl, s)] from one position of the text: [skip]
    counts the characters of the current match still to be dropped.  An
    empty match is replaced too, and the search then moves past the next
    character (a pattern of this fragment matches either only empty or only
    non-empty strings, so no other match starts at that position). *)
Fixpoint sub_from (p : regex) (repl : str) (skip : nat)
  (prev : option codepoint) (s : str) {struct s} : str :=
  match skip with
  | S n =>
      match s with
      | c :: s' => sub_from p repl n (Some c) s'
      | [] => []
      end
  | O =>
      match match_here p prev s with
      | Some (S n) =>
          repl ++ match s with
                  | c :: s' => sub_from p repl n (Some c) s'
                  | [] => []
                  end
      | Some O =>
          repl ++ match s with
                  | c :: s' => c :: sub_from p repl 0 (Some c) s'
                  | [] => []
                  end
      | None =>
          match s with
          | c :: s' => c :: sub_from p repl 0 (Some c) s'
          | [] => []
          end
      end
  end.

(** [re.sub(p, repl, s)] for a compiled pattern and a replacement without
    escapes. *)
Definition sub (p : regex) (repl : str) (s : str) : str :=
  sub_from p repl 0 None s.

End Matching.

(** The characters with a meaning of their own in a pattern:
    [. ^ $ * + ? { } [ ] \ | ( )]. *)
Definition special : str := of_ascii ".^$*+?{}[]\|()".

Definition is_special (c : codepoint) : bool := existsb (N.eqb c) special.

(** Compiling a pattern string.  Ordinary characters, [.] and [\b] are
    compiled; any other pattern syntax is outside this fragment and gives
    [None]. *)
Fixpoint compile (pat : str) {struct pat} : option regex :=
  match pat with
  | [] => Some []
  | c :: rest =>
      if N.eqb c 92 then
        match rest with
        | d :: rest' =>
            if N.eqb d 98 then option_map (cons WordB) (compile rest')
            else None
        | [] => None
        end
      else if N.eqb c 46 then option_map (cons (Char Dot)) (compile rest)
      else if is_special c then None
      else option_map (cons (Char (Lit c))) (compile rest)
  end.

(** The replacement string of [re.sub]: taken as it is unless it has a
    backslash, whose escapes are outside this fragment. *)
Definition template (repl : str) : option str :=
  if existsb (N.eqb 92) repl then None else Some repl.

End Re.

(** ** The abbreviation loop

<<
for abbrev, full_form in abbreviations.items():
    text_with_abbrev = re.sub(r'\b' + abbrev + r'\b', full_form, text_with_abbrev)
>>
    [None] when a key or an expansion uses pattern syntax outside the
    fragment of [Re]. *)

Definition word_pattern (abbrev : str) : str :=
  of_ascii "\b" ++ abbrev ++ of_ascii "\b".

Fixpoint expand_abbreviations (uni_alnum : codepoint -> bool)
  (abbreviations : mapping) (text_with_abbrev : str) : option str :=
  match abbreviations with
  | [] => Some text_with_abbrev
  | (abbrev, full_form) :: rest =>
      match Re.compile (word_pattern abbrev), Re.template full_form with
      | Some p, Some repl =>
          expand_abbreviations uni_alnum rest
            (Re.sub uni_alnum p repl text_with_abbrev)
      | _, _ => None
      end
  end.

(** The mapping and the sample text of the notebook. *)
Definition abbreviations : mapping :=
  [ (of_ascii "ASAP", of_ascii "as soon as possible");
    (of_ascii "I'm", of_ascii "I am") ].

Definition text_with_abbrev : str := of_ascii "I'm going to the gym ASAP".

(** ** The character-set cleaner

<<
def preprocess_for_sentiment(text):
    cleaned_text = re.sub(r'[^A-Za-z0-9أ-ي ]+', '', text)
    return cleaned_text
>>
    The pattern has no [\b], so the result does not depend on the word
    characters. *)

Definition cleaner_ranges : list (codepoint * codepoint) :=
  [ (65, 90); (97, 122); (48, 57); (0x623, 0x64A); (32, 32) ]%N.

Definition cleaner_pattern : Re.regex := [ Re.Plus (Re.NotIn cleaner_ranges) ].

Definition preprocess_for_sentiment (text : str) : str :=
  Re.sub (fun _ => false) cleaner_pattern [] text.

(** The sample text of the notebook: I love programming! أحب البرمجة! *)
Definition multilingual_text : str :=
  of_ascii "I love programming! " ++
  [0x623; 0x62D; 0x628; 0x20;
   0x627; 0x644; 0x628; 0x631; 0x645; 0x62C; 0x629; 0x21]%N.

(** ** Calls with arbitrary arguments

    Python passes any object as [text], and none of the three pieces of
    code checks its arguments: a call fails only where a library call it
    reaches raises.  [None] has no [replace] method, so [text.replace]
    raises an [AttributeError]; [re.sub] compiles the pattern, then
    prepares the replacement, then refuses a text that is not a string
    with a [TypeError]; a pattern or a replacement it cannot parse is
    refused with [re.error]. *)

Inductive pyobj :=
| PyNone
| PyStr (s : str).

Inductive pyexc :=
| AttributeError
| TypeError
| ReError.

Inductive outcome :=
| Return (v : pyobj)
| Raise (e : pyexc).

(** Sequencing: an exception ends the computation. *)
Definition bind (o : outcome) (k : pyobj -> outcome) : outcome :=
  match o with
  | Return v => k v
  | Raise e => Raise e
  end.

(** [text.replace(old, new)] on any object [text]. *)
Definition py_replace (text : pyobj) (old new : str) : outcome :=
  match text with
  | PyStr s => Return (PyStr (Str.replace s old new))
  | PyNone => Raise AttributeError
  end.

(** Patterns that the parser of [re] certainly refuses, read left to right
    as [Re.compile] does: a [)] that closes nothing, a [*], [+] or [?] with
    nothing to repeat ([repeatable] tells whether the parser has just read
    a character), a [(] that is not closed, a backslash at the end.  At any
    other pattern syntax outside the fragment the answer is [false]: not
    known. *)
Fixpoint pattern_error (repeatable : bool) (pat : str) {struct pat} : bool :=
  match pat with
  | [] => false
  | c :: rest =>
      if N.eqb c 92 then
        match rest with
        | d :: rest' => if N.eqb d 98 then pattern_error false rest' else false
        | [] => true
        end
      else if N.eqb c 41 then true
      else if N.eqb c 42 || N.eqb c 43 || N.eqb c 63 then negb repeatable
      else if N.eqb c 40 then
        match Re.compile rest with
        | Some _ => true
        | None => false
        end
      else if N.eqb c 46 then pattern_error true rest
      else if Re.is_special c then false
      else pattern_error true rest
  end.

Definition ascii_letter (c : codepoint) : bool :=
  (N.leb 65 c && N.leb c 90) || (N.leb 97 c && N.leb c 122).

(** Replacements that [re.sub] certainly refuses: a backslash at the end,
    or a backslash before an ASCII letter that is no escape.  The escapes
    [\a \b \f \n \r \t \v] and the doubled backslash are passed over, and
    so is a backslash before any other character, which is kept as it is;
    at a group reference ([\g] or a digit) the answer is [false]: not
    known. *)
Fixpoint template_error (repl : str) {struct repl} : bool :=
  match repl with
  | [] => false
  | c :: rest =>
      if N.eqb c 92 then
        match rest with
        | [] => true
        | d :: rest' =>
            if N.eqb d 92 || existsb (N.eqb d) (of_ascii "abfnrtv")
            then template_error rest'
            else if N.eqb d 103 || (N.leb 48 d && N.leb d 57) then false
            else if ascii_letter d then true
            else template_error rest'
        end
      else template_error rest
  end.

(** [compiled.sub(repl, string)] for a compiled pattern and a replacement
    without escapes, on any object [string]. *)
Definition py_sub_compiled (uni_alnum : codepoint -> bool) (p : Re.regex)
  (repl : str) (string : pyobj) : outcome :=
  match string with
  | PyStr s => Return (PyStr (Re.sub uni_alnum p repl s))
  | PyNone => Raise TypeError
  end.

(** [re.sub(pattern, repl, string)] on any object [string]: the pattern is
    compiled first, then the replacement is prepared, then the text is
    looked at.  [None] when the pattern or the replacement is outside the
    fragment of [Re] and not known to be refused. *)
Definition py_sub (uni_alnum : codepoint -> bool) (pattern repl : str)
  (string : pyobj) : option outcome :=
  match Re.compile pattern with
  | Some p =>
      match Re.template repl with
      | Some r => Some (py_sub_compiled uni_alnum p r string)
      | None => if template_error repl then Some (Raise ReError) else None
      end
  | None => if pattern_error false pattern then Some (Raise ReError) else None
  end.

Fixpoint py_convert_to_msa (dialect_mapping : mapping) (text : pyobj)
  : outcome :=
  match dialect_mapping with
  | [] => Return text
  | (egyptian_word, msa_word) :: rest =>
      bind (py_replace text egyptian_word msa_word) (py_convert_to_msa rest)
  end.

Fixpoint py_expand_abbreviations (uni_alnum : codepoint -> bool)
  (abbreviations : mapping) (text_with_abbrev : pyobj) : option outcome :=
  match abbreviations with
  | [] => Some (Return text_with_abbrev)
  | (abbrev, full_form) :: rest =>
      match py_sub uni_alnum (word_pattern abbrev) full_form
              text_with_abbrev with
      | Some (Return text') => py_expand_abbreviations uni_alnum rest text'
      | Some (Raise e) => Some (Raise e)
      | None => None
      end
  end.

Definition py_preprocess_for_sentiment (text : pyobj) : outcome :=
  py_sub_compiled (fun _ => false) cleaner_pattern [] text.

(** A call is rejected when it ends in an exception. *)
Definition rejected (o : outcome) : Prop := exists e, o = Raise e.

(** An entry whose key has no character with a meaning in patterns and
    whose expansion has no backslash; the key may be empty. *)
Definition literal_entry (e : str * str) : bool :=
  forallb (fun c => negb (Re.is_special c)) (fst e)
  && negb (existsb (N.eqb 92) (snd e)).

(** The text with [v] written at every word boundary, [prev] being the
    character before [s]. *)
Fixpoint insert_at_boundaries (uni_alnum : codepoint -> bool) (v : str)
  (prev : option codepoint) (s : str) {struct s} : str :=
  (if Re.at_boundary uni_alnum prev s then v else [])
  ++ match s with
     | c :: s' => c :: insert_at_boundaries uni_alnum v (Some c) s'
     | [] => []
     end.

(** ** The specification's reading of the two regular expressions *)

(** The allowed characters of the cleaner: Latin letters, decimal digits,
    the space and the Arabic range U+0623 to U+064A. *)
Definition between (lo hi c : N) : bool := N.leb lo c && N.leb c hi.

Definition allowed (c : codepoint) : bool :=
  between 65 90 c         (* A-Z *)
  || between 97 122 c     (* a-z *)
  || between 48 57 c      (* 0-9 *)
  || between 0x623 0x64A c
  || N.eqb c 32.

(** The spec's cleaner: keep the allowed characters, in order. *)
Definition spec_clean_to_allowed_charset (text : str) : str :=
  filter allowed text.

Section WholeWord.

Variable uni_alnum : codepoint -> bool.

(** The spec's whole-word occurrence: the text starts with the abbreviation,
    and the characters before and after it are non-word characters or the
    edges of the text. *)
Definition spec_whole_word_at (abbrev : str) (prev : option codepoint)
  (s : str) : bool :=
  Str.startswith s abbrev
  && negb (Re.word_before uni_alnum prev)
  && negb (Re.word_here uni_alnum (skipn (length abbrev) s)).

(** One global pass of the spec's expander for one abbreviation: every
    whole-word occurrence, left to right, is replaced by the expansion. *)
Fixpoint spec_replace_whole_word_from (abbrev full_form : str) (skip : nat)
  (prev : option codepoint) (s : str) {struct s} : str :=
  match s with
  | [] => []
  | c :: s' =>
      match skip with
      | S n => spec_replace_whole_word_from abbrev full_form n (Some c) s'
      | O =>
          if spec_whole_word_at abbrev prev s
          then full_form ++
               spec_replace_whole_word_from abbrev full_form
                 (length abbrev - 1) (Some c) s'
          else c :: spec_replace_whole_word_from abbrev full_form 0 (Some c) s'
      end
  end.

(** The spec's [expand_whole_word(text, mapping)]: one pass per entry, in
    the mapping's order, each over the current text. *)
Fixpoint spec_expand_whole_word (m : mapping) (text : str) : str :=
  match m with
  | [] => text
  | (abbrev, full_form) :: rest =>
      spec_expand_whole_word rest
        (spec_replace_whole_word_from abbrev full_form 0 None text)
  end.

(** The last character of a text, if any. *)
Definition last_char (s : str) : option codepoint :=
  last (map Some s) None.

(** An abbreviation that the pattern [\b abbrev \b] treats as a literal
    whole word: no character with a meaning in patterns, and a word
    character at both ends (so it is not empty). *)
Definition plain_key (abbrev : str) : bool :=
  forallb (fun c => negb (Re.is_special c)) abbrev
  && Re.word_here uni_alnum abbrev
  && Re.word_before uni_alnum (last_char abbrev).

Definition plain_entry (e : str * str) : bool :=
  plain_key (fst e) && negb (existsb (N.eqb 92) (snd e)).

End WholeWord.

(** ** Auxiliary notions for the proofs *)

(** The number of leading characters of [s] that [cs] accepts. *)
Fixpoint run (cs : Re.cset) (s : str) : nat :=
  match s with
  | c :: s' => if Re.cset_matches cs c then S (run cs s') else 0
  | [] => 0
  end.

(** The literal pattern of a text. *)
Definition lits (k : str) : Re.regex := map (fun c => Re.Char (Re.Lit c)) k.

(** Some occurrence of [k] in [p ++ t] starts within [p]. *)
Fixpoint starts_within (k p t : str) {struct p} : bool :=
  match p with
  | [] => false
  | _ :: p' => Str.startswith (p ++ t) k || starts_within k p' t
  end.

(** One of the two texts is a prefix of the other. *)
Fixpoint compatible (a b : str) {struct a} : bool :=
  match a, b with
  | [], _ => true
  | _, [] => true
  | x :: a', y :: b' => N.eqb x y && compatible a' b'
  end.

(** Whatever follows [v], no occurrence of [k] starts within [v]. *)
Fixpoint no_start (k v : str) {struct v} : bool :=
  match v with
  | [] => true
  | _ :: v' => negb (compatible k v) && no_start k v'
  end.

(** No occurrence of [k] can overlap an inserted [v]: the first character
    of [v] does not occur in [k], and no occurrence of [k] starts within
    [v]. *)
Definition isolated (k v : str) : bool :=
  match v with
  | [] => false
  | x :: _ => negb (existsb (N.eqb x) k) && no_start k v
  end.

(** A mapping whose keys are non-empty and whose replacements are isolated
    from every key. *)
Definition well_separated (m : mapping) : bool :=
  forallb (fun k =>
             negb (Nat.eqb (length k) 0)
             && forallb (fun v => isolated k v) (map snd m))
          (map fst m).


(** No occurrence of [k] that starts before an inserted [v] can run into
    it: no proper non-empty suffix of [k] is compatible with [v]. *)
Fixpoint no_end_from (y v : str) {struct y} : bool :=
  match y with
  | [] => true
  | _ :: y' => negb (compatible y v) && no_end_from y' v
  end.

Definition no_end (k v : str) : bool :=
  match k with
  | [] => true
  | _ :: y => no_end_from y v
  end.

Section WholeWordOccurrences.

Variable uni_alnum : codepoint -> bool.

(** Some whole-word occurrence of [k] in [s], [prev] being the character
    before [s]. *)
Fixpoint has_whole_word (k : str) (prev : option codepoint) (s : str)
  {struct s} : bool :=
  spec_whole_word_at uni_alnum k prev s ||
  match s with
  | c :: s' => has_whole_word k (Some c) s'
  | [] => false
  end.

(** Some whole-word occurrence of [k] in [p ++ t] starts within [p]. *)
Fixpoint whole_word_within (k : str) (prev : option codepoint) (p t : str)
  {struct p} : bool :=
  match p with
  | [] => false
  | c :: p' =>
      spec_whole_word_at uni_alnum k prev (p ++ t)
      || whole_word_within k (Some c) p' t
  end.

(** An expansion [v] that no occurrence of [k] can overlap, and that begins
    and ends with a word character, as the abbreviation it stands for. *)
Definition word_separated (k v : str) : bool :=
  no_start k v && no_end k v
  && Re.word_here uni_alnum v
  && Re.word_before uni_alnum (last_char v).

Definition word_separated_mapping (m : mapping) : bool :=
  forallb (plain_entry uni_alnum) m
  && forallb (fun k => forallb (word_separated k) (map snd m)) (map fst m).

End WholeWordOccurrences.

(** * Facts about [str.replace] *)

Section ReplaceFacts.

Import Str.

Lemma app_snoc (p : str) (c : codepoint) (r : str) :
  p ++ c :: r = (p ++ [c]) ++ r.
Proof. now rewrite <- app_assoc. Qed.

Lemma startswith_app (k t : str) : startswith (k ++ t) k = true.
Proof.
  induction k as [|a k IH]; simpl; [reflexivity|].
  now rewrite N.eqb_refl, IH.
Qed.

Lemma startswith_split (k s : str) :
  startswith s k = true -> s = k ++ skipn (length k) s.
Proof.
  revert s; induction k as [|a k IH]; intros s H; simpl in *.
  - reflexivity.
  - destruct s as [|b s]; [discriminate|].
    apply andb_true_iff in H as [Hab Hk].
    apply N.eqb_eq in Hab; subst b.
    simpl. f_equal. now apply IH.
Qed.

Lemma startswith_weaken (k s w : str) :
  startswith s k = true -> startswith (s ++ w) k = true.
Proof.
  revert s; induction k as [|a k IH]; intros s H; simpl in *.
  - reflexivity.
  - destruct s as [|b s]; [discriminate|]; simpl.
    apply andb_true_iff in H as [Hab Hk].
    rewrite Hab; simpl. now apply IH.
Qed.

(** An occurrence that starts in [s] and does not use [x], the character
    right after [s], lies within [s]. *)
Lemma startswith_before (k s : str) (x : codepoint) (w : str) :
  existsb (N.eqb x) k = false ->
  startswith (s ++ x :: w) k = true -> startswith s k = true.
Proof.
  revert s; induction k as [|a k IH]; intros s Hx H; simpl in *.
  - reflexivity.
  - apply orb_false_iff in Hx as [Hxa Hxk].
    destruct s as [|b s]; simpl in *.
    + apply andb_true_iff in H as [Hab _].
      apply N.eqb_eq in Hab; subst a.
      now rewrite N.eqb_refl in Hxa.
    + apply andb_true_iff in H as [Hab Hk].
      rewrite Hab; simpl. now apply IH.
Qed.

Lemma startswith_compatible (k s t : str) :
  startswith (s ++ t) k = true -> compatible k s = true.
Proof.
  revert s; induction k as [|a k IH]; intros s H; simpl in *.
  - reflexivity.
  - destruct s as [|b s]; [reflexivity|]; simpl in *.
    apply andb_true_iff in H as [Hab Hk].
    rewrite Hab; simpl. now apply IH with (s := s).
Qed.

Lemma replace_from_skip (old new : str) (n : nat) (s : str) :
  replace_from old new n s = replace_from old new 0 (skipn n s).
Proof.
  revert s; induction n as [|n IH]; intros s; [reflexivity|].
  destruct s as [|c s]; [reflexivity|].
  simpl. apply IH.
Qed.

(** The three equations of a scan with a non-empty [old]. *)
Lemma replace_from_match (a : codepoint) (old0 new t : str) :
  replace_from (a :: old0) new 0 ((a :: old0) ++ t)
  = new ++ replace_from (a :: old0) new 0 t.
Proof.
  change (replace_from (a :: old0) new 0 ((a :: old0) ++ t))
    with (if startswith ((a :: old0) ++ t) (a :: old0)
          then new ++ replace_from (a :: old0) new
                        (length (a :: old0) - 1) (old0 ++ t)
          else a :: replace_from (a :: old0) new 0 (old0 ++ t)).
  rewrite startswith_app, replace_from_skip.
  replace (length (a :: old0) - 1) with (length old0) by (simpl; lia).
  now rewrite skipn_app, skipn_all, Nat.sub_diag.
Qed.

Lemma replace_from_copy (old new : str) (c : codepoint) (s : str) :
  startswith (c :: s) old = false ->
  replace_from old new 0 (c :: s) = c :: replace_from old new 0 s.
Proof.
  intros H.
  change (replace_from old new 0 (c :: s))
    with (if startswith (c :: s) old
          then new ++ replace_from old new (length old - 1) s
          else c :: replace_from old new 0 s).
  now rewrite H.
Qed.

Lemma contains_cons (c : codepoint) (s k : str) :
  contains (c :: s) k = startswith (c :: s) k || contains s k.
Proof. reflexivity. Qed.

Lemma contains_app (k p t : str) :
  contains (p ++ t) k = starts_within k p t || contains t k.
Proof.
  induction p as [|c p IH]; [reflexivity|].
  change ((c :: p) ++ t) with (c :: (p ++ t)).
  rewrite contains_cons, IH.
  simpl starts_within. now rewrite orb_assoc.
Qed.

Lemma starts_within_app (k p q t : str) :
  starts_within k (p ++ q) t
  = starts_within k p (q ++ t) || starts_within k q t.
Proof.
  induction p as [|c p IH]; [reflexivity|].
  simpl. rewrite IH, <- app_assoc. now rewrite orb_assoc.
Qed.

Lemma starts_within_cons (k : str) (c : codepoint) (p t : str) :
  starts_within k (c :: p) t
  = startswith ((c :: p) ++ t) k || starts_within k p t.
Proof. reflexivity. Qed.

Lemma no_start_sound (k v t : str) :
  no_start k v = true -> starts_within k v t = false.
Proof.
  induction v as [|c v IH]; intros H; [reflexivity|].
  simpl in H. apply andb_true_iff in H as [Hc Hv].
  rewrite starts_within_cons, (IH Hv), orb_false_r.
  destruct (startswith _ k) eqn:E; [|reflexivity].
  apply startswith_compatible in E.
  apply negb_true_iff in Hc. congruence.
Qed.

(** Putting [v] where [w] was creates no occurrence that starts before it,
    when the first character of [v] does not occur in [k]. *)
Lemma starts_within_swap (k p : str) (x : codepoint) (v w t : str) :
  existsb (N.eqb x) k = false ->
  starts_within k p (w ++ t) = false ->
  starts_within k p ((x :: v) ++ t) = false.
Proof.
  intros Hx. induction p as [|c p IH]; intros H; [reflexivity|].
  rewrite starts_within_cons in H. apply orb_false_iff in H as [Hc Hp].
  rewrite starts_within_cons, (IH Hp), orb_false_r.
  destruct (startswith ((c :: p) ++ (x :: v) ++ t) k) eqn:E; [|reflexivity].
  change (startswith (((c :: p) ++ x :: (v ++ t))) k = true) in E.
  apply startswith_before in E; [|exact Hx].
  apply startswith_weaken with (w := w ++ t) in E.
  congruence.
Qed.

(** The invariant of one pass: the text already written, [p], followed by
    the rest of the pass over [t], has no occurrence of [k']. *)
Lemma pass_invariant (k' : str) (a : codepoint) (k0 v : str) :
  k' <> [] ->
  isolated k' v = true ->
  forall (n : nat) (t p : str),
    length t <= n ->
    starts_within k' p t = false ->
    k' = a :: k0 \/ contains t k' = false ->
    contains (p ++ replace_from (a :: k0) v 0 t) k' = false.
Proof.
  intros Hne Hiso.
  destruct v as [|x v]; [discriminate|].
  simpl in Hiso. apply andb_true_iff in Hiso as [Hx Hns].
  apply negb_true_iff in Hx.
  assert (Hstart : forall t, starts_within k' (x :: v) t = false).
  { intros t. apply no_start_sound. exact Hns. }
  induction n as [|n IH]; intros t p Hlen Hp Hk.
  - destruct t; [|simpl in Hlen; lia].
    simpl. rewrite contains_app, Hp. simpl.
    destruct k'; [congruence|reflexivity].
  - destruct t as [|c t].
    + simpl. rewrite contains_app, Hp. simpl.
      destruct k'; [congruence|reflexivity].
    + destruct (startswith (c :: t) (a :: k0)) eqn:E.
      * apply startswith_split in E.
        set (t2 := skipn (length (a :: k0)) (c :: t)) in *.
        assert (Hl2 : length t2 <= n).
        { assert (L : length (c :: t) = length ((a :: k0) ++ t2))
            by (rewrite <- E; reflexivity).
          rewrite length_app in L. simpl in L, Hlen. lia. }
        rewrite E in Hp, Hk |- *.
        rewrite replace_from_match, app_assoc.
        apply IH.
        -- exact Hl2.
        -- rewrite starts_within_app, Hstart, orb_false_r.
           eapply starts_within_swap; eassumption.
        -- destruct Hk as [Hk|Hk]; [now left|right].
           rewrite contains_app in Hk.
           now apply orb_false_iff in Hk as [_ Hk].
      * assert (Ec : startswith (c :: t) k' = false).
        { destruct Hk as [Hk|Hk]; [now rewrite Hk|].
          rewrite contains_cons in Hk.
          now apply orb_false_iff in Hk as [Hk _]. }
        rewrite replace_from_copy by exact E.
        rewrite app_snoc. apply IH.
        -- simpl in Hlen. lia.
        -- rewrite starts_within_app. simpl.
           rewrite Ec. simpl. now rewrite orb_false_r.
        -- destruct Hk as [Hk|Hk]; [now left|right].
           rewrite contains_cons in Hk.
           now apply orb_false_iff in Hk as [_ Hk].
Qed.

End ReplaceFacts.

(** * The dialect normaliser *)

Section ConvertFacts.

Import Str.

Lemma replace_absent (t k v : str) :
  contains t k = false -> replace t k v = t.
Proof.
  destruct k as [|a k0].
  - destruct t; discriminate.
  - unfold replace. induction t as [|c t IH]; intros H; [reflexivity|].
    rewrite contains_cons in H. apply orb_false_iff in H as [H1 H2].
    rewrite replace_from_copy by exact H1. now rewrite IH.
Qed.

(** After a pass for [k], a key [k'] from which [v] is isolated does not
    occur: the occurrences of [k] itself are gone, and none of another key
    is created. *)
Lemma replace_free (k' k v t : str) :
  k <> [] -> k' <> [] -> isolated k' v = true ->
  k' = k \/ contains t k' = false ->
  contains (replace t k v) k' = false.
Proof.
  intros Hk Hk' Hiso H. destruct k as [|a k0]; [congruence|].
  unfold replace.
  apply (pass_invariant k' a k0 v Hk' Hiso (length t) t []); auto.
Qed.

Lemma convert_absent (m : mapping) (t : str) :
  (forall k, In k (map fst m) -> contains t k = false) ->
  convert_to_msa m t = t.
Proof.
  revert t; induction m as [|[k v] m IH]; intros t H; [reflexivity|].
  simpl. rewrite replace_absent by (apply H; now left).
  apply IH. intros k' Hin. apply H. now right.
Qed.

Lemma convert_preserves (k' : str) (m : mapping) (t : str) :
  k' <> [] ->
  (forall e, In e m -> fst e <> [] /\ isolated k' (snd e) = true) ->
  contains t k' = false ->
  contains (convert_to_msa m t) k' = false.
Proof.
  intros Hk'. revert t; induction m as [|[k v] m IH]; intros t H Ht.
  - exact Ht.
  - simpl. apply IH.
    + intros e He. apply H. now right.
    + destruct (H (k, v)) as [Hk Hiso]; [now left|].
      apply replace_free; auto.
Qed.

Lemma convert_kills (m : mapping) :
  (forall k, In k (map fst m) ->
     k <> [] /\ forall v, In v (map snd m) -> isolated k v = true) ->
  forall t k, In k (map fst m) -> contains (convert_to_msa m t) k = false.
Proof.
  induction m as [|[k1 v1] m IH]; intros H t k Hin; [destruct Hin|].
  simpl in Hin |- *. destruct Hin as [<-|Hin].
  - destruct (H k1) as [Hne Hiso]; [now left|].
    apply convert_preserves; [exact Hne| |].
    + intros e He. split.
      * apply H. right. now apply in_map.
      * apply Hiso. right. now apply in_map.
    + apply replace_free; auto. apply Hiso. now left.
  - apply IH; [|exact Hin].
    intros k' Hk'. destruct (H k') as [Hne Hiso]; [now right|].
    split; [exact Hne|]. intros v Hv. apply Hiso. now right.
Qed.

Lemma well_separated_spec (m : mapping) :
  well_separated m = true ->
  forall k, In k (map fst m) ->
    k <> [] /\ forall v, In v (map snd m) -> isolated k v = true.
Proof.
  unfold well_separated. intros H k Hk.
  rewrite forallb_forall in H. specialize (H k Hk).
  apply andb_true_iff in H as [Hne Hiso]. split.
  - intros ->. discriminate.
  - intros v Hv. rewrite forallb_forall in Hiso. now apply Hiso.
Qed.

(** On a well-separated mapping a second run changes nothing. *)
Lemma well_separated_idempotent (m : mapping) :
  well_separated m = true ->
  forall t, convert_to_msa m (convert_to_msa m t) = convert_to_msa m t.
Proof.
  intros H t. apply convert_absent. intros k Hk.
  apply convert_kills; [|exact Hk].
  now apply well_separated_spec.
Qed.

End ConvertFacts.

(** C10: with the notebook's [dialect_mapping], running [convert_to_msa] on
    its own output gives that output again, for every text. *)
Theorem convert_to_msa_idempotent :
  forall t : str,
    convert_to_msa dialect_mapping (convert_to_msa dialect_mapping t)
    = convert_to_msa dialect_mapping t.
Proof.
  apply well_separated_idempotent. vm_compute. reflexivity.
Qed.

(** C1: [convert_to_msa] takes the entries in the mapping's order, each
    pass working on the text the earlier passes left; a pass is a plain
    left-to-right substring replacement: wherever the text starts with the
    key, whatever surrounds it, the replacement is written and the scan
    goes on after the occurrence; any other character is copied; a text
    without the key is returned as it is.  On
    the notebook's sentence, with the entries for عايز and فين, both words
    are replaced and everything else, the final question mark included,
    stays in place. *)
Theorem convert_to_msa_sequential_substring :
  (forall k v m t,
     convert_to_msa ((k, v) :: m) t = convert_to_msa m (Str.replace t k v))
  /\ (forall m1 m2 t,
        convert_to_msa (m1 ++ m2) t = convert_to_msa m2 (convert_to_msa m1 t))
  /\ (forall a k0 v,
        Str.replace [] (a :: k0) v = []
        /\ (forall t,
              Str.replace ((a :: k0) ++ t) (a :: k0) v
              = v ++ Str.replace t (a :: k0) v)
        /\ (forall c t,
              Str.startswith (c :: t) (a :: k0) = false ->
              Str.replace (c :: t) (a :: k0) v
              = c :: Str.replace t (a :: k0) v)
        /\ (forall t, Str.contains t (a :: k0) = false ->
                      Str.replace t (a :: k0) v = t))
  /\ (let k1 := [0x639; 0x627; 0x64A; 0x632]%N in
      let v1 := [0x623; 0x631; 0x64A; 0x62F]%N in
      let k2 := [0x641; 0x64A; 0x646]%N in
      let v2 := [0x623; 0x64A; 0x646]%N in
      let a := [0x623; 0x646; 0x627; 0x20]%N in
      let b := [0x20; 0x623; 0x631; 0x648; 0x62D; 0x20]%N in
      let c := [0x61F]%N in
      egyptian_arabic_text = a ++ k1 ++ b ++ k2 ++ c
      /\ convert_to_msa [(k1, v1); (k2, v2)] egyptian_arabic_text
         = a ++ v1 ++ b ++ v2 ++ c
      /\ convert_to_msa dialect_mapping egyptian_arabic_text
         = a ++ v1 ++ b ++ v2 ++ c).
Proof.
  split; [reflexivity|]. split; [|split].
  - induction m1 as [|[k v] m1 IH]; intros m2 t; [reflexivity|].
    simpl. apply IH.
  - intros a k0 v. split; [reflexivity|]. split; [|split].
    + intros t. apply replace_from_match.
    + intros c t H. now apply replace_from_copy.
    + intros t. apply replace_absent.
  - vm_compute. repeat split.
Qed.

Lemma convert_to_msa_sequential_substring_witness :
  Str.startswith (of_ascii "xab") (of_ascii "ab") = false
  /\ Str.replace (of_ascii "xab") (of_ascii "ab") (of_ascii "Z")
     = 120%N :: Str.replace (of_ascii "ab") (of_ascii "ab") (of_ascii "Z").
Proof.
  split; [reflexivity|].
  destruct convert_to_msa_sequential_substring as (_ & _ & H & _).
  destruct (H 97%N (of_ascii "b") (of_ascii "Z")) as (_ & _ & Hcopy & _).
  apply (Hcopy 120%N (of_ascii "ab")). reflexivity.
Defined.

(** * The character-set cleaner *)

Section CleanerFacts.

Variable uni_alnum : codepoint -> bool.

(** A lone [cs+] matches the longest run of accepted characters, if it is
    not empty. *)
Lemma greedy_run (cs : Re.cset) (taken : bool) (prev : option codepoint)
  (s : str) :
  Re.greedy cs (Re.match_here uni_alnum []) taken prev s
  = match run cs s with
    | O => if taken then Some 0 else None
    | S n => Some (S n)
    end.
Proof.
  revert taken prev; induction s as [|c s IH]; intros taken prev.
  - reflexivity.
  - simpl. destruct (Re.cset_matches cs c); [|reflexivity].
    rewrite IH. now destruct (run cs s).
Qed.

Lemma plus_match (cs : Re.cset) (prev : option codepoint) (s : str) :
  Re.match_here uni_alnum [Re.Plus cs] prev s
  = match run cs s with
    | O => None
    | S n => Some (S n)
    end.
Proof. apply (greedy_run cs false). Qed.

(** Replacing the runs by nothing keeps exactly the other characters. *)
Lemma sub_plus_filter (cs : Re.cset) (s : str) :
  forall (skip : nat) (prev : option codepoint),
    skip <= run cs s ->
    Re.sub_from uni_alnum [Re.Plus cs] [] skip prev s
    = filter (fun c => negb (Re.cset_matches cs c)) s.
Proof.
  induction s as [|c s IH]; intros skip prev Hskip.
  - simpl in Hskip. destruct skip; [reflexivity|lia].
  - destruct skip as [|n].
    + unfold Re.sub_from; fold Re.sub_from. rewrite plus_match.
      simpl run in *. simpl filter.
      destruct (Re.cset_matches cs c); simpl.
      * apply IH. lia.
      * f_equal. apply IH. lia.
    + simpl run in Hskip. simpl.
      destruct (Re.cset_matches cs c); simpl; [|lia].
      apply IH. lia.
Qed.

End CleanerFacts.

Lemma allowed_cleaner (c : codepoint) :
  negb (Re.cset_matches (Re.NotIn cleaner_ranges) c) = allowed c.
Proof.
  unfold allowed, between, Re.cset_matches, cleaner_ranges. simpl.
  unfold Re.in_range; simpl.
  rewrite negb_involutive, orb_false_r, !orb_assoc. f_equal.
  destruct (N.leb_spec 32 c), (N.leb_spec c 32), (N.eqb_spec c 32);
    simpl; try reflexivity; lia.
Qed.

(** The cleaner keeps the allowed characters, in order, and nothing else. *)
Lemma preprocess_filter (text : str) :
  preprocess_for_sentiment text = filter allowed text.
Proof.
  unfold preprocess_for_sentiment, Re.sub, cleaner_pattern.
  rewrite sub_plus_filter by lia.
  apply filter_ext. exact allowed_cleaner.
Qed.

Lemma filter_all (f : codepoint -> bool) (s : str) :
  forallb f s = true -> filter f s = s.
Proof.
  induction s as [|c s IH]; simpl; [reflexivity|].
  intros H. apply andb_true_iff in H as [Hc Hs].
  rewrite Hc. now rewrite IH.
Qed.

Lemma filter_none (f : codepoint -> bool) (s : str) :
  forallb (fun c => negb (f c)) s = true -> filter f s = [].
Proof.
  induction s as [|c s IH]; simpl; [reflexivity|].
  intros H. apply andb_true_iff in H as [Hc Hs].
  apply negb_true_iff in Hc. rewrite Hc. now apply IH.
Qed.

Lemma filter_idem (f : codepoint -> bool) (s : str) :
  filter f (filter f s) = filter f s.
Proof.
  apply filter_all. apply forallb_forall. intros c Hc.
  now apply filter_In in Hc.
Qed.

(** C4: for every text, [preprocess_for_sentiment] returns the characters
    of the text that are Latin letters, digits, the space or in the range
    U+0623 to U+064A, in their order, and drops every other character; on
    the notebook's sample it drops the two exclamation marks and keeps the
    rest. *)
Theorem preprocess_for_sentiment_keeps_allowed :
  (forall text, preprocess_for_sentiment text
                = spec_clean_to_allowed_charset text)
  /\ (let english := of_ascii "I love programming" in
      let arabic := [0x623; 0x62D; 0x628; 0x20; 0x627; 0x644; 0x628;
                     0x631; 0x645; 0x62C; 0x629]%N in
      let bang := of_ascii "!" in
      let space := of_ascii " " in
      multilingual_text = english ++ bang ++ space ++ arabic ++ bang
      /\ preprocess_for_sentiment multilingual_text
         = english ++ space ++ arabic).
Proof.
  split.
  - exact preprocess_filter.
  - vm_compute. split; reflexivity.
Qed.

(** C5: cleaning a cleaned text changes nothing; the empty text gives the
    empty text; a text of allowed characters only is returned unchanged; a
    text of disallowed characters only gives the empty text. *)
Theorem preprocess_for_sentiment_idempotent :
  (forall t, preprocess_for_sentiment (preprocess_for_sentiment t)
             = preprocess_for_sentiment t)
  /\ preprocess_for_sentiment [] = []
  /\ (forall t, forallb allowed t = true -> preprocess_for_sentiment t = t)
  /\ (forall t, forallb (fun c => negb (allowed c)) t = true ->
                preprocess_for_sentiment t = []).
Proof.
  split; [|split; [|split]].
  - intros t. rewrite !preprocess_filter. apply filter_idem.
  - reflexivity.
  - intros t H. rewrite preprocess_filter. now apply filter_all.
  - intros t H. rewrite preprocess_filter. now apply filter_none.
Qed.

Lemma preprocess_for_sentiment_idempotent_witness :
  forallb allowed (of_ascii "gym 2 go") = true
  /\ preprocess_for_sentiment (of_ascii "gym 2 go") = of_ascii "gym 2 go"
  /\ forallb (fun c => negb (allowed c)) (of_ascii "?!.,") = true
  /\ preprocess_for_sentiment (of_ascii "?!.,") = [].
Proof.
  split; [reflexivity|]. split.
  - apply (proj1 (proj2 (proj2 preprocess_for_sentiment_idempotent))).
    reflexivity.
  - split; [reflexivity|].
    apply (proj2 (proj2 (proj2 preprocess_for_sentiment_idempotent))).
    reflexivity.
Defined.

(** C6: the cleaned text is never longer than the text. *)
Theorem preprocess_for_sentiment_length :
  forall t, length (preprocess_for_sentiment t) <= length t.
Proof.
  intros t. rewrite preprocess_filter. apply filter_length_le.
Qed.

(** C9: every character of the output is in the literal set of the
    pattern, and a character outside it is deleted wherever it stands; so
    the Arabic letters U+0621 and U+0622 and the Arabic-Indic digits U+0660
    to U+0669 are deleted, letters and digits though they are. *)
Theorem preprocess_for_sentiment_literal_set :
  (forall t c, In c (preprocess_for_sentiment t) -> allowed c = true)
  /\ (forall c a b,
        allowed c = false ->
        preprocess_for_sentiment (a ++ c :: b)
        = preprocess_for_sentiment a ++ preprocess_for_sentiment b)
  /\ (forall c,
        (c = 0x621 \/ c = 0x622 \/ 0x660 <= c <= 0x669)%N ->
        allowed c = false
        /\ forall a b,
             preprocess_for_sentiment (a ++ c :: b)
             = preprocess_for_sentiment a ++ preprocess_for_sentiment b).
Proof.
  assert (Hdel : forall c a b,
             allowed c = false ->
             preprocess_for_sentiment (a ++ c :: b)
             = preprocess_for_sentiment a ++ preprocess_for_sentiment b).
  { intros c a b Hc. rewrite !preprocess_filter, filter_app.
    simpl. now rewrite Hc. }
  split; [|split].
  - intros t c Hc. rewrite preprocess_filter in Hc.
    now apply filter_In in Hc.
  - exact Hdel.
  - intros c Hc.
    assert (Hno : allowed c = false).
    { unfold allowed, between.
      repeat match goal with
             | |- context [N.leb ?x ?y] => destruct (N.leb_spec x y)
             | |- context [N.eqb ?x ?y] => destruct (N.eqb_spec x y)
             end; simpl; try reflexivity; lia. }
    split; [exact Hno|]. intros a b. now apply Hdel.
Qed.

Lemma preprocess_for_sentiment_literal_set_witness :
  (0x660 <= 0x663 <= 0x669)%N
  /\ allowed 0x663%N = false
  /\ preprocess_for_sentiment (of_ascii "a" ++ 0x663%N :: of_ascii "b")
     = preprocess_for_sentiment (of_ascii "a")
       ++ preprocess_for_sentiment (of_ascii "b").
Proof.
  assert (H : (0x660 <= 0x663 <= 0x669)%N) by lia.
  split; [exact H|].
  destruct (proj2 (proj2 preprocess_for_sentiment_literal_set) 0x663%N
              (or_intror (or_intror H))) as [Hno Hdel].
  split; [exact Hno|]. apply Hdel.
Defined.

(** * The abbreviation loop *)

Section ExpanderFacts.

Variable uni_alnum : codepoint -> bool.

Lemma not_special (c : codepoint) :
  Re.is_special c = false -> N.eqb c 92 = false /\ N.eqb c 46 = false.
Proof.
  intros H. split.
  - destruct (N.eqb_spec c 92) as [->|]; [discriminate H|reflexivity].
  - destruct (N.eqb_spec c 46) as [->|]; [discriminate H|reflexivity].
Qed.

(** A key without special characters compiles to its literal pattern. *)
Lemma compile_lits (k rest : str) :
  forallb (fun c => negb (Re.is_special c)) k = true ->
  Re.compile (k ++ rest) = option_map (app (lits k)) (Re.compile rest).
Proof.
  induction k as [|c k IH]; intros H.
  - simpl. now destruct (Re.compile rest).
  - simpl in H. apply andb_true_iff in H as [Hc Hk].
    apply negb_true_iff in Hc.
    destruct (not_special c Hc) as [H92 H46].
    change (Re.compile ((c :: k) ++ rest))
      with (if N.eqb c 92 then
              match k ++ rest with
              | d :: rest' =>
                  if N.eqb d 98
                  then option_map (cons Re.WordB) (Re.compile rest')
                  else None
              | [] => None
              end
            else if N.eqb c 46
                 then option_map (cons (Re.Char Re.Dot)) (Re.compile (k ++ rest))
                 else if Re.is_special c then None
                      else option_map (cons (Re.Char (Re.Lit c)))
                             (Re.compile (k ++ rest))).
    rewrite H92, H46, Hc, (IH Hk).
    now destruct (Re.compile rest).
Qed.

Lemma compile_word_pattern (k : str) :
  forallb (fun c => negb (Re.is_special c)) k = true ->
  Re.compile (word_pattern k) = Some (Re.WordB :: lits k ++ [Re.WordB]).
Proof.
  intros H. unfold word_pattern.
  change (Re.compile (of_ascii "\b" ++ k ++ of_ascii "\b"))
    with (option_map (cons Re.WordB) (Re.compile (k ++ of_ascii "\b"))).
  now rewrite compile_lits.
Qed.

Lemma last_cons (A : Type) (x : A) (l : list A) (d : A) :
  last (x :: l) d = last l x.
Proof.
  revert x d; induction l as [|y l IH]; intros x d; [reflexivity|].
  change (last (x :: y :: l) d) with (last (y :: l) d).
  now rewrite (IH y d), (IH y x).
Qed.

(** A literal pattern matches exactly where the text starts with it. *)
Lemma match_lits (k : str) (q : Re.regex) :
  forall (prev : option codepoint) (s : str),
    Re.match_here uni_alnum (lits k ++ q) prev s
    = if Str.startswith s k
      then option_map (Nat.add (length k))
             (Re.match_here uni_alnum q
                (last (map Some k) prev) (skipn (length k) s))
      else None.
Proof.
  induction k as [|a k IH]; intros prev s.
  - simpl. now destruct (Re.match_here uni_alnum q prev s).
  - destruct s as [|c s]; [reflexivity|].
    change (Re.match_here uni_alnum (lits (a :: k) ++ q) prev (c :: s))
      with (if N.eqb a c
            then option_map S
                   (Re.match_here uni_alnum (lits k ++ q) (Some c) s)
            else None).
    change (Str.startswith (c :: s) (a :: k))
      with (N.eqb a c && Str.startswith s k).
    destruct (N.eqb_spec a c) as [<-|]; [|reflexivity].
    rewrite IH. simpl andb.
    destruct (Str.startswith s k); [|reflexivity].
    change (map Some (a :: k)) with (Some a :: map Some k).
    rewrite last_cons. simpl skipn. simpl length.
    now destruct (Re.match_here uni_alnum q _ _).
Qed.

Lemma word_here_startswith (k s : str) :
  k <> [] -> Str.startswith s k = true ->
  Re.word_here uni_alnum s = Re.word_here uni_alnum k.
Proof.
  intros Hk H. destruct k as [|a k]; [congruence|].
  destruct s as [|c s]; [discriminate|].
  simpl in H. apply andb_true_iff in H as [Hac _].
  apply N.eqb_eq in Hac. now subst.
Qed.

Lemma plain_key_parts (k : str) :
  plain_key uni_alnum k = true ->
  forallb (fun c => negb (Re.is_special c)) k = true
  /\ Re.word_here uni_alnum k = true
  /\ Re.word_before uni_alnum (last_char k) = true
  /\ exists n, length k = S n.
Proof.
  unfold plain_key. intros H.
  apply andb_true_iff in H as [H Hlast].
  apply andb_true_iff in H as [Hlit Hfirst].
  repeat split; auto.
  destruct k; [discriminate Hfirst|]. now eexists.
Qed.

(** For a plain key the pattern [\b key \b] matches exactly at the spec's
    whole-word occurrences. *)
Lemma word_match (k : str) (prev : option codepoint) (s : str) :
  plain_key uni_alnum k = true ->
  Re.match_here uni_alnum (Re.WordB :: lits k ++ [Re.WordB]) prev s
  = if spec_whole_word_at uni_alnum k prev s then Some (length k) else None.
Proof.
  intros Hplain.
  destruct (plain_key_parts k Hplain) as (_ & Hfirst & Hlast & n & Hlen).
  assert (Hne : k <> []) by (intros ->; discriminate Hlen).
  change (Re.match_here uni_alnum (Re.WordB :: lits k ++ [Re.WordB]) prev s)
    with (if Re.at_boundary uni_alnum prev s
          then Re.match_here uni_alnum (lits k ++ [Re.WordB]) prev s
          else None).
  rewrite match_lits. unfold spec_whole_word_at.
  destruct (Str.startswith s k) eqn:E.
  - unfold Re.at_boundary at 1.
    rewrite (word_here_startswith k s Hne E), Hfirst.
    assert (Hl : last (map Some k) prev = last_char k).
    { unfold last_char. destruct k as [|a k]; [congruence|].
      change (map Some (a :: k)) with (Some a :: map Some k).
      now rewrite !last_cons. }
    rewrite Hl.
    change (Re.match_here uni_alnum [Re.WordB] (last_char k)
              (skipn (length k) s))
      with (if Re.at_boundary uni_alnum (last_char k) (skipn (length k) s)
            then Some 0 else None).
    unfold Re.at_boundary. rewrite Hlast.
    destruct (Re.word_before uni_alnum prev),
             (Re.word_here uni_alnum (skipn (length k) s));
      simpl; try reflexivity.
    now rewrite Nat.add_0_r.
  - simpl. now destruct (Re.at_boundary uni_alnum prev s).
Qed.

(** One [re.sub] pass for a plain key is the spec's whole-word pass. *)
Lemma sub_whole_word (k v : str) :
  plain_key uni_alnum k = true ->
  forall (s : str) (skip : nat) (prev : option codepoint),
    Re.sub_from uni_alnum (Re.WordB :: lits k ++ [Re.WordB]) v skip prev s
    = spec_replace_whole_word_from uni_alnum k v skip prev s.
Proof.
  intros Hplain.
  destruct (plain_key_parts k Hplain) as (_ & _ & _ & n & Hlen).
  induction s as [|c s IH]; intros skip prev.
  - destruct skip; [|reflexivity].
    unfold Re.sub_from. rewrite word_match by exact Hplain.
    assert (E : spec_whole_word_at uni_alnum k prev [] = false).
    { unfold spec_whole_word_at. destruct k; [discriminate Hlen|reflexivity]. }
    now rewrite E.
  - destruct skip as [|m].
    + unfold Re.sub_from; fold Re.sub_from.
      rewrite word_match by exact Hplain.
      unfold spec_replace_whole_word_from;
        fold spec_replace_whole_word_from.
      destruct (spec_whole_word_at uni_alnum k prev (c :: s)).
      * rewrite Hlen. simpl. rewrite Nat.sub_0_r. now rewrite IH.
      * now rewrite IH.
    + simpl. apply IH.
Qed.

Lemma expand_plain (m : mapping) :
  forallb (plain_entry uni_alnum) m = true ->
  forall t, expand_abbreviations uni_alnum m t
            = Some (spec_expand_whole_word uni_alnum m t).
Proof.
  induction m as [|[k v] m IH]; intros H t; [reflexivity|].
  simpl in H. apply andb_true_iff in H as [He Hm].
  unfold plain_entry in He. simpl in He.
  apply andb_true_iff in He as [Hk Hv].
  apply negb_true_iff in Hv.
  destruct (plain_key_parts k Hk) as (Hlit & _).
  cbn [expand_abbreviations spec_expand_whole_word].
  rewrite compile_word_pattern by exact Hlit.
  unfold Re.template. rewrite Hv.
  unfold Re.sub. rewrite sub_whole_word by exact Hk.
  now apply IH.
Qed.

End ExpanderFacts.

(** C2 (as stated, refuted): the loop hands the key to the pattern compiler
    as it is.  With the key ['s] the occurrence in [it's] is replaced
    although a word character stands before it, where the spec's whole-word
    pass leaves the text alone; with the key [a.m] the text [my arm], which
    does not contain the key, is rewritten, the dot matching any
    character. *)
Lemma expand_abbreviations_not_always_whole_word :
  (forall uni_alnum,
     let m := [(of_ascii "'s", of_ascii " is")] in
     expand_abbreviations uni_alnum m (of_ascii "it's")
     = Some (of_ascii "it is")
     /\ spec_expand_whole_word uni_alnum m (of_ascii "it's")
        = of_ascii "it's")
  /\ (forall uni_alnum,
        let m := [(of_ascii "a.m", of_ascii "morning")] in
        Str.contains (of_ascii "my arm") (of_ascii "a.m") = false
        /\ expand_abbreviations uni_alnum m (of_ascii "my arm")
           = Some (of_ascii "my morning")).
Proof.
  split; intros uni_alnum; split; vm_compute; reflexivity.
Qed.

(** C2 (amended): for a mapping whose keys have no character with a meaning
    in patterns and begin and end with a word character, as the two keys
    of the notebook do, and whose expansions have no backslash, the loop
    is the spec's expander: entry by entry, every whole-word occurrence of
    the key, compared character by character, is replaced.  With the entry
    for ASAP alone the text ASAPX is left unchanged, and so is asap. *)
Theorem expand_abbreviations_whole_word :
  (forall uni_alnum m,
     forallb (plain_entry uni_alnum) m = true ->
     forall t, expand_abbreviations uni_alnum m t
               = Some (spec_expand_whole_word uni_alnum m t))
  /\ (forall uni_alnum, forallb (plain_entry uni_alnum) abbreviations = true)
  /\ (forall uni_alnum,
        let m := [(of_ascii "ASAP", of_ascii "as soon as possible")] in
        expand_abbreviations uni_alnum m (of_ascii "ASAPX")
        = Some (of_ascii "ASAPX")
        /\ expand_abbreviations uni_alnum m (of_ascii "asap")
           = Some (of_ascii "asap")
        /\ expand_abbreviations uni_alnum m (of_ascii "(ASAP)")
           = Some (of_ascii "(as soon as possible)")).
Proof.
  split; [|split].
  - intros uni_alnum m H t. now apply expand_plain.
  - intros uni_alnum. vm_compute. reflexivity.
  - intros uni_alnum. repeat split; vm_compute; reflexivity.
Qed.

Lemma expand_abbreviations_whole_word_witness :
  forallb (plain_entry (fun _ => false)) abbreviations = true
  /\ expand_abbreviations (fun _ => false) abbreviations text_with_abbrev
     = Some (spec_expand_whole_word (fun _ => false) abbreviations
               text_with_abbrev).
Proof.
  split; [reflexivity|].
  apply (proj1 expand_abbreviations_whole_word (fun _ => false)
           abbreviations).
  reflexivity.
Defined.

(** C3: on the notebook's text, with the entry for ASAP applied first and
    the entry for I'm second, each pass over the current text, the loop
    ends with "I am going to the gym as soon as possible". *)
Theorem expand_abbreviations_sample :
  forall uni_alnum,
    expand_abbreviations uni_alnum
      [ (of_ascii "ASAP", of_ascii "as soon as possible");
        (of_ascii "I'm", of_ascii "I am") ]
      (of_ascii "I'm going to the gym ASAP")
    = Some (of_ascii "I am going to the gym as soon as possible")
    /\ expand_abbreviations uni_alnum
         [ (of_ascii "ASAP", of_ascii "as soon as possible") ]
         (of_ascii "I'm going to the gym ASAP")
       = Some (of_ascii "I'm going to the gym as soon as possible")
    /\ expand_abbreviations uni_alnum abbreviations text_with_abbrev
       = Some (of_ascii "I am going to the gym as soon as possible").
Proof.
  intros uni_alnum. repeat split; vm_compute; reflexivity.
Qed.

(** C7: with an empty mapping the normaliser returns the text unchanged,
    and so does the abbreviation loop. *)
Theorem empty_mapping_identity :
  forall T : str,
    convert_to_msa [] T = T
    /\ forall uni_alnum, expand_abbreviations uni_alnum [] T = Some T.
Proof.
  intros T. split; [reflexivity|]. intros uni_alnum. reflexivity.
Qed.

(** * Calls with malformed arguments *)

Lemma py_convert_to_msa_str (m : mapping) (s : str) :
  py_convert_to_msa m (PyStr s) = Return (PyStr (convert_to_msa m s)).
Proof.
  revert s; induction m as [|[k v] m IH]; intros s; [reflexivity|].
  simpl. apply IH.
Qed.

Lemma py_convert_to_msa_none (m : mapping) :
  m <> [] -> py_convert_to_msa m PyNone = Raise AttributeError.
Proof. destruct m as [|[k v] m]; [congruence|reflexivity]. Qed.

Lemma py_convert_to_msa_rejected (m : mapping) (text : pyobj) :
  rejected (py_convert_to_msa m text) <-> text = PyNone /\ m <> [].
Proof.
  split.
  - intros [e He]. destruct text as [|s].
    + split; [reflexivity|]. intros ->. discriminate He.
    + rewrite py_convert_to_msa_str in He. discriminate He.
  - intros [-> Hm]. exists AttributeError. now apply py_convert_to_msa_none.
Qed.

Lemma py_preprocess_for_sentiment_rejected (text : pyobj) :
  rejected (py_preprocess_for_sentiment text) <-> text = PyNone.
Proof.
  split.
  - intros [e He]. destruct text; [reflexivity|discriminate He].
  - intros ->. now exists TypeError.
Qed.

Section PyExpanderFacts.

Variable uni_alnum : codepoint -> bool.

Lemma literal_entry_parts (k v : str) :
  literal_entry (k, v) = true ->
  Re.compile (word_pattern k) = Some (Re.WordB :: lits k ++ [Re.WordB])
  /\ Re.template v = Some v.
Proof.
  unfold literal_entry. simpl. intros H.
  apply andb_true_iff in H as [Hk Hv]. apply negb_true_iff in Hv.
  split; [now apply compile_word_pattern|].
  unfold Re.template. now rewrite Hv.
Qed.

(** On a string the loop with exceptions is the loop on texts. *)
Lemma py_expand_abbreviations_str (m : mapping) :
  forall s r,
    expand_abbreviations uni_alnum m s = Some r ->
    py_expand_abbreviations uni_alnum m (PyStr s)
    = Some (Return (PyStr r)).
Proof.
  induction m as [|[k v] m IH]; intros s r H.
  - simpl in H. injection H as <-. reflexivity.
  - cbn [expand_abbreviations] in H.
    cbn [py_expand_abbreviations]. unfold py_sub.
    destruct (Re.compile (word_pattern k)) as [p|]; [|discriminate H].
    destruct (Re.template v) as [repl|]; [|discriminate H].
    simpl. now apply IH.
Qed.

Lemma expand_abbreviations_literal (m : mapping) :
  forallb literal_entry m = true ->
  forall s, exists r, expand_abbreviations uni_alnum m s = Some r.
Proof.
  induction m as [|[k v] m IH]; intros H s; [now exists s|].
  simpl in H. apply andb_true_iff in H as [He Hm].
  destruct (literal_entry_parts k v He) as [Hc Ht].
  cbn [expand_abbreviations]. rewrite Hc, Ht. now apply IH.
Qed.

Lemma py_expand_abbreviations_none (m : mapping) :
  forallb literal_entry m = true -> m <> [] ->
  py_expand_abbreviations uni_alnum m PyNone = Some (Raise TypeError).
Proof.
  destruct m as [|[k v] m]; intros H Hm; [congruence|].
  simpl in H. apply andb_true_iff in H as [He _].
  destruct (literal_entry_parts k v He) as [Hc Ht].
  cbn [py_expand_abbreviations]. unfold py_sub. now rewrite Hc, Ht.
Qed.

Lemma py_expand_abbreviations_rejected (m : mapping) (text : pyobj) :
  forallb literal_entry m = true ->
  exists o,
    py_expand_abbreviations uni_alnum m text = Some o
    /\ (rejected o <-> text = PyNone /\ m <> [])
    /\ (rejected o -> o = Raise TypeError).
Proof.
  intros H. destruct text as [|s].
  - destruct m as [|e m].
    + exists (Return PyNone). split; [reflexivity|]. split.
      * split; [intros [e He]; discriminate He|intros [_ Hm]; congruence].
      * intros [e He]. discriminate He.
    + exists (Raise TypeError).
      split; [now apply py_expand_abbreviations_none|]. split; [|reflexivity].
      split; [split; [reflexivity|discriminate]|now exists TypeError].
  - destruct (expand_abbreviations_literal m H s) as [r Hr].
    exists (Return (PyStr r)).
    split; [now apply py_expand_abbreviations_str|]. split.
    + split; [intros [e He]; discriminate He|intros [Hs _]; discriminate Hs].
    + intros [e He]. discriminate He.
Qed.

(** The pattern of an empty key, [\b\b], matches the empty string at every
    word boundary. *)
Lemma sub_from_boundaries (v : str) (s : str) :
  forall prev,
    Re.sub_from uni_alnum [Re.WordB; Re.WordB] v 0 prev s
    = insert_at_boundaries uni_alnum v prev s.
Proof.
  assert (Hm : forall prev s,
             Re.match_here uni_alnum [Re.WordB; Re.WordB] prev s
             = if Re.at_boundary uni_alnum prev s then Some 0 else None).
  { intros prev t. simpl. now destruct (Re.at_boundary uni_alnum prev t). }
  induction s as [|c s IH]; intros prev.
  - unfold Re.sub_from, insert_at_boundaries. rewrite Hm.
    now destruct (Re.at_boundary uni_alnum prev []).
  - unfold Re.sub_from; fold Re.sub_from.
    unfold insert_at_boundaries; fold insert_at_boundaries.
    rewrite Hm, IH.
    now destruct (Re.at_boundary uni_alnum prev (c :: s)).
Qed.

Lemma expand_abbreviations_empty_key (v s : str) :
  existsb (N.eqb 92) v = false ->
  expand_abbreviations uni_alnum [([], v)] s
  = Some (insert_at_boundaries uni_alnum v None s).
Proof.
  intros Hv.
  destruct (literal_entry_parts [] v) as [Hc Ht].
  { unfold literal_entry. simpl. now rewrite Hv. }
  cbn [expand_abbreviations]. rewrite Hc, Ht.
  unfold Re.sub. simpl lits. simpl app. now rewrite sub_from_boundaries.
Qed.

(** A pattern known to be refused is not one that [Re.compile] accepts. *)
Lemma pattern_error_compile :
  forall (n : nat) (pat : str) (repeatable : bool),
    length pat <= n ->
    pattern_error repeatable pat = true -> Re.compile pat = None.
Proof.
  induction n as [|n IH]; intros pat repeatable Hlen H.
  - destruct pat; [discriminate H|simpl in Hlen; lia].
  - destruct pat as [|c rest]; [discriminate H|].
    simpl in Hlen. simpl in H |- *.
    destruct (N.eqb_spec c 92) as [->|H92].
    + destruct rest as [|d rest']; [reflexivity|].
      destruct (N.eqb d 98); [|reflexivity].
      rewrite (IH rest' false); [reflexivity|simpl in Hlen; lia|exact H].
    + destruct (N.eqb_spec c 41) as [->|H41]; [reflexivity|].
      destruct (N.eqb_spec c 42) as [->|H42]; [reflexivity|].
      destruct (N.eqb_spec c 43) as [->|H43]; [reflexivity|].
      destruct (N.eqb_spec c 63) as [->|H63]; [reflexivity|].
      simpl in H.
      destruct (N.eqb_spec c 40) as [->|H40]; [reflexivity|].
      destruct (N.eqb c 46).
      * rewrite (IH rest true); [reflexivity|lia|exact H].
      * destruct (Re.is_special c); [reflexivity|].
        rewrite (IH rest true); [reflexivity|lia|exact H].
Qed.

Lemma template_error_backslash :
  forall (n : nat) (repl : str),
    length repl <= n ->
    template_error repl = true -> existsb (N.eqb 92) repl = true.
Proof.
  induction n as [|n IH]; intros repl Hlen H.
  - destruct repl; [discriminate H|simpl in Hlen; lia].
  - destruct repl as [|c rest]; [discriminate H|].
    simpl in Hlen.
    change (existsb (N.eqb 92) (c :: rest))
      with (N.eqb 92 c || existsb (N.eqb 92) rest).
    destruct (N.eqb_spec 92 c) as [<-|Hc]; [reflexivity|].
    simpl orb.
    change (template_error (c :: rest))
      with (if N.eqb c 92
            then match rest with
                 | [] => true
                 | d :: rest' =>
                     if N.eqb d 92 || existsb (N.eqb d) (of_ascii "abfnrtv")
                     then template_error rest'
                     else if N.eqb d 103 || (N.leb 48 d && N.leb d 57)
                          then false
                          else if ascii_letter d then true
                               else template_error rest'
                 end
            else template_error rest) in H.
    destruct (N.eqb_spec c 92) as [->|_]; [congruence|].
    apply IH; [lia|exact H].
Qed.

Lemma py_expand_abbreviations_pattern_error (k v : str) (rest : mapping)
  (text : pyobj) :
  pattern_error false (word_pattern k) = true ->
  py_expand_abbreviations uni_alnum ((k, v) :: rest) text
  = Some (Raise ReError).
Proof.
  intros H. cbn [py_expand_abbreviations]. unfold py_sub.
  rewrite (pattern_error_compile _ _ _ (le_n _) H). now rewrite H.
Qed.

Lemma py_expand_abbreviations_template_error (k v : str) (rest : mapping)
  (text : pyobj) :
  forallb (fun c => negb (Re.is_special c)) k = true ->
  template_error v = true ->
  py_expand_abbreviations uni_alnum ((k, v) :: rest) text
  = Some (Raise ReError).
Proof.
  intros Hk H. cbn [py_expand_abbreviations]. unfold py_sub.
  rewrite (compile_word_pattern k Hk). unfold Re.template.
  rewrite (template_error_backslash _ _ (le_n _) H). now rewrite H.
Qed.

End PyExpanderFacts.

(** C8 (as stated, refuted): a mapping with an empty key is not rejected by
    the normaliser: the call returns, with the replacement written before
    every character and at the end; and with an empty mapping even a
    missing text is returned as it is. *)
Lemma malformed_arguments_not_rejected :
  py_convert_to_msa [(of_ascii "", of_ascii "-")] (PyStr (of_ascii "ab"))
  = Return (PyStr (of_ascii "-a-b-"))
  /\ ~ rejected
       (py_convert_to_msa [(of_ascii "", of_ascii "-")]
          (PyStr (of_ascii "ab")))
  /\ py_convert_to_msa [] PyNone = Return PyNone.
Proof.
  split; [reflexivity|]. split; [|reflexivity].
  intros [e He]. discriminate He.
Qed.

(** C8 (amended): no argument is checked at the call boundary; a call is
    rejected only where a library call it reaches raises.  The text is
    [None] or a string.

    - The normaliser is rejected exactly when the text is [None] and the
      mapping is not empty, with the [AttributeError] of [text.replace]; a
      text that is a string is never rejected, whatever the mapping, and
      with the single entry of an empty key the replacement is written
      before every character and at the end.
    - The cleaner is rejected exactly when the text is [None], with the
      [TypeError] of [re.sub].
    - With a mapping whose keys have no character with a meaning in
      patterns (an empty key included) and whose expansions have no
      backslash, the abbreviation loop is rejected exactly when the text
      is [None] and the mapping is not empty, with the [TypeError] of
      [re.sub]; on a string, with the single entry of an empty key, the
      expansion is written at every word boundary.
    - Outside such mappings the loop can reject any text with [re.error]:
      it does when the pattern of the first key is one the parser refuses
      (a [)] that closes nothing, a [(] that is not closed, a [*], [+] or
      [?] with nothing to repeat; the keys [:)] and [(] for instance), and
      when the first key has no character with a meaning in patterns and
      its expansion has a bad escape (a backslash at the end or before an
      ASCII letter that is no escape). *)
Theorem malformed_arguments_behaviour :
  (* the normaliser *)
  (forall m text,
     rejected (py_convert_to_msa m text) <-> text = PyNone /\ m <> [])
  /\ (forall m, m <> [] -> py_convert_to_msa m PyNone = Raise AttributeError)
  /\ (forall m s,
        py_convert_to_msa m (PyStr s) = Return (PyStr (convert_to_msa m s)))
  /\ (forall v s,
        convert_to_msa [([], v)] s = v ++ flat_map (fun c => c :: v) s)
  (* the cleaner *)
  /\ (forall text,
        rejected (py_preprocess_for_sentiment text) <-> text = PyNone)
  /\ py_preprocess_for_sentiment PyNone = Raise TypeError
  /\ (forall s,
        py_preprocess_for_sentiment (PyStr s)
        = Return (PyStr (preprocess_for_sentiment s)))
  (* the abbreviation loop on literal entries *)
  /\ (forall uni_alnum m text,
        forallb literal_entry m = true ->
        exists o,
          py_expand_abbreviations uni_alnum m text = Some o
          /\ (rejected o <-> text = PyNone /\ m <> [])
          /\ (rejected o -> o = Raise TypeError))
  /\ (forall uni_alnum m s r,
        expand_abbreviations uni_alnum m s = Some r ->
        py_expand_abbreviations uni_alnum m (PyStr s)
        = Some (Return (PyStr r)))
  /\ (forall uni_alnum v s,
        existsb (N.eqb 92) v = false ->
        expand_abbreviations uni_alnum [([], v)] s
        = Some (insert_at_boundaries uni_alnum v None s))
  (* patterns and expansions that are refused *)
  /\ (forall uni_alnum k v rest text,
        pattern_error false (word_pattern k) = true ->
        py_expand_abbreviations uni_alnum ((k, v) :: rest) text
        = Some (Raise ReError))
  /\ pattern_error false (word_pattern (of_ascii ":)")) = true
  /\ pattern_error false (word_pattern (of_ascii "(")) = true
  /\ (forall uni_alnum k v rest text,
        forallb (fun c => negb (Re.is_special c)) k = true ->
        template_error v = true ->
        py_expand_abbreviations uni_alnum ((k, v) :: rest) text
        = Some (Raise ReError)).
Proof.
  repeat match goal with |- _ /\ _ => split end.
  - exact py_convert_to_msa_rejected.
  - exact py_convert_to_msa_none.
  - exact py_convert_to_msa_str.
  - reflexivity.
  - exact py_preprocess_for_sentiment_rejected.
  - reflexivity.
  - reflexivity.
  - intros uni_alnum m text. apply py_expand_abbreviations_rejected.
  - intros uni_alnum m. apply py_expand_abbreviations_str.
  - exact expand_abbreviations_empty_key.
  - exact py_expand_abbreviations_pattern_error.
  - reflexivity.
  - reflexivity.
  - exact py_expand_abbreviations_template_error.
Qed.

Lemma malformed_arguments_behaviour_witness :
  (dialect_mapping <> []
   /\ py_convert_to_msa dialect_mapping PyNone = Raise AttributeError)
  /\ (forallb literal_entry abbreviations = true
      /\ exists o,
           py_expand_abbreviations (fun _ => false) abbreviations PyNone
           = Some o
           /\ (rejected o <-> PyNone = PyNone /\ abbreviations <> [])
           /\ (rejected o -> o = Raise TypeError))
  /\ (expand_abbreviations (fun _ => false) abbreviations text_with_abbrev
      = Some (of_ascii "I am going to the gym as soon as possible")
      /\ py_expand_abbreviations (fun _ => false) abbreviations
           (PyStr text_with_abbrev)
         = Some (Return
                   (PyStr
                      (of_ascii "I am going to the gym as soon as possible"))))
  /\ (existsb (N.eqb 92) (of_ascii "-") = false
      /\ expand_abbreviations (fun _ => false) [([], of_ascii "-")]
           (of_ascii "ab cd")
         = Some (of_ascii "-ab- -cd-"))
  /\ (pattern_error false (word_pattern (of_ascii ":)")) = true
      /\ py_expand_abbreviations (fun _ => false)
           [(of_ascii ":)", of_ascii "smile")] (PyStr (of_ascii "hi :)"))
         = Some (Raise ReError))
  /\ (forallb (fun c => negb (Re.is_special c)) (of_ascii "ASAP") = true
      /\ template_error (of_ascii "a\qb") = true
      /\ py_expand_abbreviations (fun _ => false)
           [(of_ascii "ASAP", of_ascii "a\qb")] (PyStr (of_ascii "ASAP"))
         = Some (Raise ReError)).
Proof.
  destruct malformed_arguments_behaviour
    as (_ & Hnone & _ & _ & _ & _ & _ & Hlit & Hstr & Hempty & Hpat & _ & _
        & Htem).
  assert (H : dialect_mapping <> []) by discriminate.
  split; [split; [exact H|exact (Hnone dialect_mapping H)]|].
  split; [split; [reflexivity|apply Hlit; reflexivity]|].
  split; [split; [reflexivity|apply Hstr; reflexivity]|].
  split.
  { split; [reflexivity|].
    eapply eq_trans; [apply Hempty; reflexivity|reflexivity]. }
  split; [split; [reflexivity|apply Hpat; reflexivity]|].
  split; [reflexivity|]. split; [reflexivity|].
  apply Htem; reflexivity.
Defined.

(** * Further properties of the dialect normaliser *)

Section ConvertMore.

Import Str.

Lemma contains_head (t : str) (a : codepoint) (k0 : str) :
  contains t (a :: k0) = true -> In a t.
Proof.
  induction t as [|c t IH]; intros H.
  - discriminate H.
  - rewrite contains_cons in H. apply orb_true_iff in H as [H|H].
    + simpl in H. apply andb_true_iff in H as [H _].
      apply N.eqb_eq in H. now left.
    + right. now apply IH.
Qed.

Lemma replace_from_chars (k v : str) (c : codepoint) (s : str) :
  forall skip, In c (replace_from k v skip s) -> In c s \/ In c v.
Proof.
  induction s as [|x s IH]; intros skip H; [destruct H|].
  destruct skip as [|n].
  - unfold replace_from in H; fold replace_from in H.
    destruct (startswith (x :: s) k).
    + apply in_app_or in H as [H|H]; [now right|].
      destruct (IH _ H) as [H'|H']; [left; now right|now right].
    + destruct H as [->|H]; [left; now left|].
      destruct (IH _ H) as [H'|H']; [left; now right|now right].
  - simpl in H. destruct (IH _ H) as [H'|H']; [left; now right|now right].
Qed.

Lemma replace_chars (t k v : str) (c : codepoint) :
  In c (replace t k v) -> In c t \/ In c v.
Proof.
  destruct k as [|a k0]; unfold replace.
  - intros H. apply in_app_or in H as [H|H]; [now right|].
    apply in_flat_map in H as (x & Hx & [->|H]); [now left|now right].
  - apply replace_from_chars.
Qed.

(** A character that occurs in no key splits the scan of a pass. *)
Lemma replace_from_split (a0 : codepoint) (k0 v : str) (c : codepoint) :
  existsb (N.eqb c) (a0 :: k0) = false ->
  forall n a b,
    length a <= n ->
    replace_from (a0 :: k0) v 0 (a ++ c :: b)
    = replace_from (a0 :: k0) v 0 a ++ c :: replace_from (a0 :: k0) v 0 b.
Proof.
  intros Hc.
  assert (Hhead : forall b, startswith (c :: b) (a0 :: k0) = false).
  { intros b. simpl in Hc |- *. apply orb_false_iff in Hc as [Hc _].
    rewrite N.eqb_sym, Hc. reflexivity. }
  induction n as [|n IH]; intros a b Hlen.
  - destruct a; [|simpl in Hlen; lia].
    simpl app. now rewrite replace_from_copy.
  - destruct a as [|x a].
    + simpl app. now rewrite replace_from_copy.
    + destruct (startswith (x :: a) (a0 :: k0)) eqn:E.
      * apply startswith_split in E.
        set (a2 := skipn (length (a0 :: k0)) (x :: a)) in *.
        assert (Hl : length a2 <= n).
        { assert (L : length (x :: a) = length ((a0 :: k0) ++ a2))
            by (rewrite <- E; reflexivity).
          rewrite length_app in L. simpl in L, Hlen. lia. }
        rewrite E, <- app_assoc, !replace_from_match, (IH a2 b Hl).
        now rewrite app_assoc.
      * assert (E' : startswith ((x :: a) ++ c :: b) (a0 :: k0) = false).
        { destruct (startswith ((x :: a) ++ c :: b) (a0 :: k0)) eqn:E2;
            [|reflexivity].
          apply startswith_before in E2; [congruence|exact Hc]. }
        change ((x :: a) ++ c :: b) with (x :: (a ++ c :: b)) in *.
        rewrite (replace_from_copy _ _ _ _ E'), (replace_from_copy _ _ _ _ E).
        rewrite IH by (simpl in Hlen; lia). reflexivity.
Qed.

Lemma convert_split (m : mapping) (c : codepoint) :
  forallb (fun k => negb (Nat.eqb (length k) 0)
                    && negb (existsb (N.eqb c) k)) (map fst m) = true ->
  forall a b,
    convert_to_msa m (a ++ c :: b)
    = convert_to_msa m a ++ c :: convert_to_msa m b.
Proof.
  induction m as [|[k v] m IH]; intros H a b; [reflexivity|].
  simpl in H. apply andb_true_iff in H as [Hk Hm].
  apply andb_true_iff in Hk as [Hne Hc]. apply negb_true_iff in Hc.
  destruct k as [|a0 k0]; [discriminate Hne|].
  cbn [convert_to_msa]. unfold replace.
  rewrite (replace_from_split a0 k0 v c Hc (length a) a b (le_n _)).
  now apply IH.
Qed.

End ConvertMore.

(** X1: with the notebook's mapping, the text returned by
    [convert_to_msa] contains none of the five dialect words, whatever the
    input. *)
Theorem convert_to_msa_removes_dialect_words :
  forall t : str,
    forallb (fun k => negb (Str.contains (convert_to_msa dialect_mapping t) k))
            (map fst dialect_mapping) = true.
Proof.
  intros t. apply forallb_forall. intros k Hk.
  apply negb_true_iff. apply convert_kills; [|exact Hk].
  apply well_separated_spec. vm_compute. reflexivity.
Qed.

(** X2: a text in which no key of the mapping occurs is returned
    unchanged, for any mapping. *)
Theorem convert_to_msa_no_match :
  forall (m : mapping) (t : str),
    forallb (fun k => negb (Str.contains t k)) (map fst m) = true ->
    convert_to_msa m t = t.
Proof.
  intros m t H. apply convert_absent. intros k Hk.
  rewrite forallb_forall in H. apply negb_true_iff. now apply H.
Qed.

Lemma convert_to_msa_no_match_witness :
  forallb (fun k => negb (Str.contains (of_ascii "I love programming!") k))
          (map fst dialect_mapping) = true
  /\ convert_to_msa dialect_mapping (of_ascii "I love programming!")
     = of_ascii "I love programming!".
Proof.
  split; [reflexivity|].
  apply (convert_to_msa_no_match dialect_mapping). reflexivity.
Defined.

(** X3: the empty text is returned empty when no key of the mapping is
    empty; an empty key makes the call return its replacement instead. *)
Theorem convert_to_msa_empty_text :
  (forall m : mapping,
     forallb (fun k => negb (Nat.eqb (length k) 0)) (map fst m) = true ->
     convert_to_msa m [] = [])
  /\ (forall v : str, convert_to_msa [([], v)] [] = v).
Proof.
  split.
  - intros m H. apply convert_absent. intros k Hk.
    rewrite forallb_forall in H. specialize (H k Hk).
    destruct k; [discriminate H|reflexivity].
  - intros v. simpl. apply app_nil_r.
Qed.

Lemma convert_to_msa_empty_text_witness :
  forallb (fun k => negb (Nat.eqb (length k) 0)) (map fst dialect_mapping)
  = true
  /\ convert_to_msa dialect_mapping [] = [].
Proof.
  split; [reflexivity|].
  apply (proj1 convert_to_msa_empty_text dialect_mapping). reflexivity.
Defined.

(** X4: [convert_to_msa] invents no character: every character of its
    result is a character of the input or of one of the mapping's
    replacements. *)
Theorem convert_to_msa_characters :
  forall (m : mapping) (t : str) (c : codepoint),
    In c (convert_to_msa m t) ->
    In c t \/ exists v, In v (map snd m) /\ In c v.
Proof.
  induction m as [|[k v] m IH]; intros t c H; [now left|].
  simpl in H. destruct (IH _ _ H) as [H1|(w & Hw & Hc)].
  - apply replace_chars in H1 as [H1|H1]; [now left|].
    right. exists v. split; [now left|exact H1].
  - right. exists w. split; [now right|exact Hc].
Qed.

Lemma convert_to_msa_characters_witness :
  In 0x62F%N (convert_to_msa dialect_mapping egyptian_arabic_text)
  /\ (In 0x62F%N egyptian_arabic_text
      \/ exists v, In v (map snd dialect_mapping) /\ In 0x62F%N v).
Proof.
  assert (H : In 0x62F%N (convert_to_msa dialect_mapping egyptian_arabic_text)).
  { vm_compute. do 7 right. left. reflexivity. }
  split; [exact H|].
  exact (convert_to_msa_characters dialect_mapping egyptian_arabic_text
           0x62F%N H).
Defined.

(** X5: with the notebook's mapping a text of ASCII characters only
    (English text, digits, punctuation) is returned unchanged. *)
Theorem convert_to_msa_keeps_ascii :
  forall t : str,
    forallb (fun c => N.ltb c 128) t = true ->
    convert_to_msa dialect_mapping t = t.
Proof.
  intros t H. apply convert_absent. intros k Hk.
  destruct (Str.contains t k) eqn:E; [|reflexivity].
  rewrite forallb_forall in H.
  simpl in Hk.
  repeat (destruct Hk as [<-|Hk];
          [apply contains_head in E; apply H in E; discriminate E|]).
  destruct Hk.
Qed.

Lemma convert_to_msa_keeps_ascii_witness :
  forallb (fun c => N.ltb c 128) text_with_abbrev = true
  /\ convert_to_msa dialect_mapping text_with_abbrev = text_with_abbrev.
Proof.
  split; [reflexivity|].
  apply convert_to_msa_keeps_ascii. reflexivity.
Defined.

(** X6: the result depends on the order of the mapping's entries: on the
    text كدهاروح, in which the keys كده and هاروح overlap, the notebook's
    order and the reverse order give different texts. *)
Theorem convert_to_msa_order_matters :
  let t := [0x643; 0x62F; 0x647; 0x627; 0x631; 0x648; 0x62D]%N in
  convert_to_msa dialect_mapping t
  = [0x643; 0x62F; 0x633; 0x623; 0x630; 0x647; 0x628]%N
  /\ convert_to_msa (rev dialect_mapping) t
     <> convert_to_msa dialect_mapping t.
Proof.
  split; [vm_compute; reflexivity|].
  vm_compute. discriminate.
Qed.

(** X7: a character that occurs in no key splits the work: the parts
    before and after it are converted independently, whatever the
    replacements are.  With the notebook's mapping every space does so. *)
Theorem convert_to_msa_splits :
  forall (m : mapping) (c : codepoint),
    forallb (fun k => negb (Nat.eqb (length k) 0)
                      && negb (existsb (N.eqb c) k)) (map fst m) = true ->
    forall a b : str,
      convert_to_msa m (a ++ c :: b)
      = convert_to_msa m a ++ c :: convert_to_msa m b.
Proof.
  exact convert_split.
Qed.

Lemma convert_to_msa_splits_witness :
  forallb (fun k => negb (Nat.eqb (length k) 0)
                    && negb (existsb (N.eqb 32) k))
          (map fst dialect_mapping) = true
  /\ forall a b : str,
       convert_to_msa dialect_mapping (a ++ 32%N :: b)
       = convert_to_msa dialect_mapping a
         ++ 32%N :: convert_to_msa dialect_mapping b.
Proof.
  split; [reflexivity|].
  apply (convert_to_msa_splits dialect_mapping 32%N). reflexivity.
Defined.

(** * Further properties of the abbreviation loop *)

Section WholeWordFacts.

Import Str.

Variable uni_alnum : codepoint -> bool.

Local Abbreviation W := (spec_whole_word_at uni_alnum).
Local Abbreviation R := (spec_replace_whole_word_from uni_alnum).
Local Abbreviation wb := (Re.word_before uni_alnum).
Local Abbreviation wh := (Re.word_here uni_alnum).

Lemma W_startswith (k : str) (prev : option codepoint) (s : str) :
  W k prev s = true -> startswith s k = true.
Proof.
  unfold spec_whole_word_at. intros H.
  apply andb_true_iff in H as [H _]. now apply andb_true_iff in H as [H _].
Qed.

Lemma W_prev (k : str) (prev prev' : option codepoint) (s : str) :
  wb prev = wb prev' -> W k prev s = W k prev' s.
Proof. unfold spec_whole_word_at. now intros ->. Qed.

Lemma last_char_cons (a : codepoint) (k : str) (d : option codepoint) :
  last (map Some (a :: k)) d = last_char (a :: k).
Proof.
  unfold last_char. change (map Some (a :: k)) with (Some a :: map Some k).
  now rewrite !last_cons.
Qed.

Lemma last_app_cons (A : Type) (l : list A) (x : A) (m : list A) :
  forall d d', last (l ++ x :: m) d = last (x :: m) d'.
Proof.
  induction l as [|c l IH]; intros d d'.
  - simpl app. now rewrite !last_cons.
  - change ((c :: l) ++ x :: m) with (c :: (l ++ x :: m)).
    rewrite last_cons. apply IH.
Qed.

Lemma last_char_app (p : str) (a : codepoint) (v : str) :
  last_char (p ++ a :: v) = last_char (a :: v).
Proof.
  unfold last_char. rewrite map_app.
  change (map Some (a :: v)) with (Some a :: map Some v).
  apply last_app_cons.
Qed.

Lemma R_copy (k v : str) (prev : option codepoint) (c : codepoint) (s : str) :
  W k prev (c :: s) = false ->
  R k v 0 prev (c :: s) = c :: R k v 0 (Some c) s.
Proof.
  intros H.
  change (R k v 0 prev (c :: s))
    with (if W k prev (c :: s)
          then v ++ R k v (length k - 1) (Some c) s
          else c :: R k v 0 (Some c) s).
  now rewrite H.
Qed.

Lemma R_skip (k v : str) (n : nat) :
  forall (prev : option codepoint) (s : str),
    R k v n prev s
    = R k v 0 (last (map Some (firstn n s)) prev) (skipn n s).
Proof.
  induction n as [|n IH]; intros prev s; [reflexivity|].
  destruct s as [|c s]; [reflexivity|].
  change (R k v (S n) prev (c :: s)) with (R k v n (Some c) s).
  rewrite IH.
  change (map Some (firstn (S n) (c :: s)))
    with (Some c :: map Some (firstn n s)).
  now rewrite last_cons.
Qed.

Lemma R_match (a : codepoint) (k0 v : str) (prev : option codepoint)
  (t : str) :
  W (a :: k0) prev ((a :: k0) ++ t) = true ->
  R (a :: k0) v 0 prev ((a :: k0) ++ t)
  = v ++ R (a :: k0) v 0 (last_char (a :: k0)) t.
Proof.
  intros H.
  change (R (a :: k0) v 0 prev ((a :: k0) ++ t))
    with (if W (a :: k0) prev ((a :: k0) ++ t)
          then v ++ R (a :: k0) v (length (a :: k0) - 1) (Some a) (k0 ++ t)
          else a :: R (a :: k0) v 0 (Some a) (k0 ++ t)).
  rewrite H, R_skip.
  replace (length (a :: k0) - 1) with (length k0) by (simpl; lia).
  rewrite firstn_app, firstn_all, skipn_app, skipn_all, Nat.sub_diag.
  simpl firstn. simpl skipn. rewrite app_nil_r.
  unfold last_char. change (map Some (a :: k0)) with (Some a :: map Some k0).
  now rewrite last_cons.
Qed.

Lemma has_whole_word_cons (k : str) (prev : option codepoint)
  (c : codepoint) (s : str) :
  has_whole_word uni_alnum k prev (c :: s)
  = W k prev (c :: s) || has_whole_word uni_alnum k (Some c) s.
Proof. reflexivity. Qed.

Lemma whole_word_within_cons (k : str) (prev : option codepoint)
  (c : codepoint) (p t : str) :
  whole_word_within uni_alnum k prev (c :: p) t
  = W k prev ((c :: p) ++ t) || whole_word_within uni_alnum k (Some c) p t.
Proof. reflexivity. Qed.

Lemma has_whole_word_app (k : str) (p t : str) :
  forall prev,
    has_whole_word uni_alnum k prev (p ++ t)
    = whole_word_within uni_alnum k prev p t
      || has_whole_word uni_alnum k (last (map Some p) prev) t.
Proof.
  induction p as [|c p IH]; intros prev; [reflexivity|].
  change ((c :: p) ++ t) with (c :: (p ++ t)).
  rewrite has_whole_word_cons, IH, whole_word_within_cons.
  change (map Some (c :: p)) with (Some c :: map Some p).
  now rewrite last_cons, orb_assoc.
Qed.

Lemma whole_word_within_app (k : str) (p q t : str) :
  forall prev,
    whole_word_within uni_alnum k prev (p ++ q) t
    = whole_word_within uni_alnum k prev p (q ++ t)
      || whole_word_within uni_alnum k (last (map Some p) prev) q t.
Proof.
  induction p as [|c p IH]; intros prev; [reflexivity|].
  change ((c :: p) ++ q) with (c :: (p ++ q)).
  rewrite !whole_word_within_cons, IH.
  change (map Some (c :: p)) with (Some c :: map Some p).
  rewrite last_cons, (app_assoc (c :: p) q t). now rewrite orb_assoc.
Qed.

Lemma whole_word_within_starts (k : str) (p t : str) :
  forall prev,
    whole_word_within uni_alnum k prev p t = true ->
    starts_within k p t = true.
Proof.
  induction p as [|c p IH]; intros prev H; [discriminate H|].
  rewrite whole_word_within_cons in H. rewrite starts_within_cons.
  apply orb_true_iff in H as [H|H].
  - apply W_startswith in H. now rewrite H.
  - rewrite (IH _ H). apply orb_true_r.
Qed.

Lemma has_whole_word_contains (k : str) (s : str) :
  forall prev,
    has_whole_word uni_alnum k prev s = true -> contains s k = true.
Proof.
  induction s as [|c s IH]; intros prev H.
  - change (W k prev [] || false = true) in H.
    rewrite orb_false_r in H. apply W_startswith in H.
    change (startswith [] k || false = true). now rewrite H.
  - rewrite has_whole_word_cons in H. rewrite contains_cons.
    apply orb_true_iff in H as [H|H].
    + apply W_startswith in H. now rewrite H.
    + rewrite (IH _ H). apply orb_true_r.
Qed.

(** A pass over a text without whole-word occurrence changes nothing. *)
Lemma R_absent (k v : str) (s : str) :
  forall prev,
    has_whole_word uni_alnum k prev s = false -> R k v 0 prev s = s.
Proof.
  induction s as [|c s IH]; intros prev H; [reflexivity|].
  rewrite has_whole_word_cons in H. apply orb_false_iff in H as [H1 H2].
  rewrite R_copy by exact H1. now rewrite IH.
Qed.

Lemma no_end_from_sound (v w : str) (s : str) :
  forall y,
    no_end_from y v = true ->
    startswith (s ++ v ++ w) y = true -> startswith s y = true.
Proof.
  induction s as [|c s IH]; intros y Hy H.
  - destruct y as [|a y]; [reflexivity|].
    simpl app in H. apply startswith_compatible in H.
    simpl in Hy. apply andb_true_iff in Hy as [Hy _].
    apply negb_true_iff in Hy. simpl in H. congruence.
  - destruct y as [|a y]; [reflexivity|].
    simpl in H |- *. apply andb_true_iff in H as [Hac H].
    rewrite Hac. simpl.
    simpl in Hy. apply andb_true_iff in Hy as [_ Hy].
    now apply IH.
Qed.

Lemma word_here_app (x y : str) :
  wh (x ++ y) = match x with [] => wh y | _ :: _ => wh x end.
Proof. now destruct x. Qed.

(** Putting [v] where [k] was keeps every position before it free of
    whole-word occurrences of [k']. *)
Lemma W_swap (k' k v : str) (prev : option codepoint) (c : codepoint)
  (s t : str) :
  no_end k' v = true -> wh k = true -> wh v = true ->
  W k' prev ((c :: s) ++ v ++ t) = true ->
  W k' prev ((c :: s) ++ k ++ t) = true.
Proof.
  intros Hend Hk Hv H.
  assert (Hs : startswith (c :: s) k' = true).
  { apply W_startswith in H.
    destruct k' as [|a y]; [reflexivity|].
    simpl in H |- *. apply andb_true_iff in H as [Hac H].
    rewrite Hac. simpl. simpl in Hend.
    now apply (no_end_from_sound v t s y). }
  pose proof (startswith_split _ _ Hs) as E.
  remember (skipn (length k') (c :: s)) as s1 eqn:Es1. clear Es1 Hs.
  remember (c :: s) as cs eqn:Ecs. clear Ecs. subst cs.
  unfold spec_whole_word_at in *.
  apply andb_true_iff in H as [H Hright].
  apply andb_true_iff in H as [_ Hleft].
  rewrite <- app_assoc in Hright |- *.
  rewrite startswith_app, Hleft.
  rewrite skipn_app, skipn_all, Nat.sub_diag in Hright |- *.
  change (skipn 0 (s1 ++ v ++ t)) with (s1 ++ v ++ t) in Hright.
  change (skipn 0 (s1 ++ k ++ t)) with (s1 ++ k ++ t).
  change ([] ++ s1 ++ v ++ t) with (s1 ++ v ++ t) in Hright.
  change ([] ++ s1 ++ k ++ t) with (s1 ++ k ++ t).
  rewrite word_here_app in Hright |- *.
  destruct s1; [|exact Hright].
  rewrite word_here_app in Hright |- *.
  destruct v as [|x v]; [discriminate Hv|].
  rewrite Hv in Hright. discriminate Hright.
Qed.

Lemma whole_word_within_swap (k' k v : str) (p t : str) :
  no_end k' v = true -> wh k = true -> wh v = true ->
  forall prev,
    whole_word_within uni_alnum k' prev p (k ++ t) = false ->
    whole_word_within uni_alnum k' prev p (v ++ t) = false.
Proof.
  intros Hend Hk Hv.
  induction p as [|c p IH]; intros prev H; [reflexivity|].
  rewrite whole_word_within_cons in H |- *.
  apply orb_false_iff in H as [H1 H2].
  rewrite (IH _ H2), orb_false_r.
  destruct (W k' prev ((c :: p) ++ v ++ t)) eqn:E; [|reflexivity].
  apply (W_swap k' k v prev c p t Hend Hk Hv) in E. congruence.
Qed.

End WholeWordFacts.

Section WholeWordPass.

Import Str.

Variable uni_alnum : codepoint -> bool.

Local Abbreviation W := (spec_whole_word_at uni_alnum).
Local Abbreviation R := (spec_replace_whole_word_from uni_alnum).
Local Abbreviation wb := (Re.word_before uni_alnum).
Local Abbreviation wh := (Re.word_here uni_alnum).

Lemma word_separated_parts (k v : str) :
  word_separated uni_alnum k v = true ->
  no_start k v = true /\ no_end k v = true
  /\ wh v = true /\ wb (last_char v) = true.
Proof.
  unfold word_separated. intros H.
  apply andb_true_iff in H as [H H4].
  apply andb_true_iff in H as [H H3].
  apply andb_true_iff in H as [H1 H2]. auto.
Qed.

(** The invariant of one pass of the loop: the text already written, [p],
    followed by the rest of the pass over [t], has no whole-word occurrence
    of [k']. *)
Lemma whole_word_pass_invariant (k' k v : str) :
  k' <> [] ->
  plain_key uni_alnum k = true ->
  word_separated uni_alnum k' v = true ->
  forall (n : nat) (t p : str) (prev : option codepoint),
    length t <= n ->
    wb prev = wb (last_char p) ->
    whole_word_within uni_alnum k' None p t = false ->
    k' = k \/ has_whole_word uni_alnum k' prev t = false ->
    has_whole_word uni_alnum k' None (p ++ R k v 0 prev t) = false.
Proof.
  intros Hne Hplain Hsep.
  destruct (plain_key_parts uni_alnum k Hplain) as (_ & Hk1 & Hk2 & _).
  destruct (word_separated_parts k' v Hsep) as (Hns & Hend & Hv1 & Hv2).
  assert (Hnil : forall q, has_whole_word uni_alnum k' q [] = false).
  { intros q. destruct k'; [congruence|reflexivity]. }
  induction n as [|n IH]; intros t p prev Hlen Hprev Hp Hk.
  - destruct t; [|simpl in Hlen; lia].
    change (R k v 0 prev []) with (@nil codepoint).
    now rewrite has_whole_word_app, Hp, Hnil.
  - destruct t as [|c t].
    + change (R k v 0 prev []) with (@nil codepoint).
      now rewrite has_whole_word_app, Hp, Hnil.
    + destruct (W k prev (c :: t)) eqn:E.
      * pose proof (startswith_split _ _ (W_startswith _ _ _ _ E)) as Et.
        set (t2 := skipn (length k) (c :: t)) in *.
        destruct k as [|a k0]; [discriminate Hk1|].
        destruct v as [|x v0]; [discriminate Hv1|].
        assert (Hl2 : length t2 <= n).
        { assert (L : length (c :: t) = length ((a :: k0) ++ t2))
            by (rewrite <- Et; reflexivity).
          rewrite length_app in L. simpl in L, Hlen. lia. }
        rewrite Et in E, Hp, Hk |- *.
        rewrite (R_match uni_alnum a k0 (x :: v0) prev t2 E), app_assoc.
        apply IH.
        -- exact Hl2.
        -- now rewrite last_char_app, Hk2, Hv2.
        -- rewrite whole_word_within_app.
           apply orb_false_iff. split.
           ++ now apply (whole_word_within_swap uni_alnum k' (a :: k0)).
           ++ destruct (whole_word_within uni_alnum k' _ (x :: v0) t2) eqn:F;
                [|reflexivity].
              apply whole_word_within_starts in F.
              now rewrite no_start_sound in F.
        -- destruct Hk as [Hk|Hk]; [now left|right].
           rewrite has_whole_word_app in Hk.
           apply orb_false_iff in Hk as [_ Hk].
           now rewrite last_char_cons in Hk.
      * assert (Ec : W k' (last_char p) (c :: t) = false).
        { rewrite <- (W_prev uni_alnum k' prev) by exact Hprev.
          destruct Hk as [Hk|Hk]; [now rewrite Hk|].
          rewrite has_whole_word_cons in Hk.
          now apply orb_false_iff in Hk as [Hk _]. }
        rewrite (R_copy uni_alnum k v prev c t E), app_snoc.
        apply IH.
        -- simpl in Hlen. lia.
        -- now rewrite last_char_app.
        -- rewrite whole_word_within_app.
           apply orb_false_iff. split; [exact Hp|].
           rewrite whole_word_within_cons.
           change (whole_word_within uni_alnum k' (Some c) [] t) with false.
           rewrite orb_false_r.
           rewrite <- Ec. apply W_prev.
           unfold last_char. destruct p as [|d p]; [reflexivity|].
           now rewrite last_char_cons.
        -- destruct Hk as [Hk|Hk]; [now left|right].
           rewrite has_whole_word_cons in Hk.
           now apply orb_false_iff in Hk as [_ Hk].
Qed.

Lemma whole_word_pass_free (k' k v t : str) :
  k' <> [] ->
  plain_key uni_alnum k = true ->
  word_separated uni_alnum k' v = true ->
  k' = k \/ has_whole_word uni_alnum k' None t = false ->
  has_whole_word uni_alnum k' None (R k v 0 None t) = false.
Proof.
  intros Hne Hplain Hsep H.
  apply (whole_word_pass_invariant k' k v Hne Hplain Hsep
           (length t) t [] None); auto.
Qed.

Lemma spec_expand_absent (m : mapping) (t : str) :
  (forall k, In k (map fst m) ->
             has_whole_word uni_alnum k None t = false) ->
  spec_expand_whole_word uni_alnum m t = t.
Proof.
  revert t; induction m as [|[k v] m IH]; intros t H; [reflexivity|].
  cbn [spec_expand_whole_word].
  rewrite R_absent by (apply H; now left).
  apply IH. intros k' Hk'. apply H. now right.
Qed.

Lemma spec_expand_preserves (k' : str) (m : mapping) (t : str) :
  k' <> [] ->
  (forall e, In e m ->
             plain_key uni_alnum (fst e) = true
             /\ word_separated uni_alnum k' (snd e) = true) ->
  has_whole_word uni_alnum k' None t = false ->
  has_whole_word uni_alnum k' None (spec_expand_whole_word uni_alnum m t)
  = false.
Proof.
  intros Hne. revert t; induction m as [|[k v] m IH]; intros t H Ht.
  - exact Ht.
  - cbn [spec_expand_whole_word]. apply IH.
    + intros e He. apply H. now right.
    + destruct (H (k, v)) as [Hk Hsep]; [now left|].
      apply whole_word_pass_free; auto.
Qed.

Lemma spec_expand_kills (m : mapping) :
  (forall k, In k (map fst m) ->
     plain_key uni_alnum k = true
     /\ forall v, In v (map snd m) -> word_separated uni_alnum k v = true) ->
  forall t k,
    In k (map fst m) ->
    has_whole_word uni_alnum k None (spec_expand_whole_word uni_alnum m t)
    = false.
Proof.
  induction m as [|[k1 v1] m IH]; intros H t k Hin; [destruct Hin|].
  assert (Hne : forall k, plain_key uni_alnum k = true -> k <> []).
  { intros k0 Hk0. destruct (plain_key_parts uni_alnum k0 Hk0)
      as (_ & _ & _ & n & Hn). intros ->. discriminate Hn. }
  cbn [spec_expand_whole_word]. simpl in Hin. destruct Hin as [<-|Hin].
  - destruct (H k1) as [Hp Hsep]; [now left|].
    apply spec_expand_preserves; [now apply Hne| |].
    + intros e He. split.
      * apply H. right. now apply in_map.
      * apply Hsep. right. now apply in_map.
    + apply whole_word_pass_free; auto. apply Hsep. now left.
  - apply IH; [|exact Hin].
    intros k' Hk'. destruct (H k') as [Hp Hsep]; [now right|].
    split; [exact Hp|]. intros v Hv. apply Hsep. now right.
Qed.

Lemma word_separated_mapping_spec (m : mapping) :
  word_separated_mapping uni_alnum m = true ->
  forallb (plain_entry uni_alnum) m = true
  /\ forall k, In k (map fst m) ->
       plain_key uni_alnum k = true
       /\ forall v, In v (map snd m) -> word_separated uni_alnum k v = true.
Proof.
  unfold word_separated_mapping. intros H.
  apply andb_true_iff in H as [Hplain Hsep]. split; [exact Hplain|].
  intros k Hk. split.
  - apply in_map_iff in Hk as ([k0 v0] & <- & He).
    rewrite forallb_forall in Hplain. specialize (Hplain _ He).
    unfold plain_entry in Hplain.
    now apply andb_true_iff in Hplain as [Hplain _].
  - intros v Hv. rewrite forallb_forall in Hsep.
    specialize (Hsep k Hk). rewrite forallb_forall in Hsep. now apply Hsep.
Qed.

End WholeWordPass.

Section WholeWordSplit.

Import Str.

Variable uni_alnum : codepoint -> bool.

Local Abbreviation W := (spec_whole_word_at uni_alnum).
Local Abbreviation R := (spec_replace_whole_word_from uni_alnum).

Lemma R_prev (k v : str) (prev prev' : option codepoint) (s : str) :
  Re.word_before uni_alnum prev = Re.word_before uni_alnum prev' ->
  R k v 0 prev s = R k v 0 prev' s.
Proof.
  intros H. destruct s as [|c s]; [reflexivity|].
  change (R k v 0 prev (c :: s))
    with (if W k prev (c :: s)
          then v ++ R k v (length k - 1) (Some c) s
          else c :: R k v 0 (Some c) s).
  now rewrite (W_prev uni_alnum k prev prev' (c :: s) H).
Qed.

(** Before a non-word character that is not in the key, the whole-word
    occurrences are those of the text cut there. *)
Lemma W_split (a0 : codepoint) (k0 : str) (prev : option codepoint)
  (c : codepoint) (a b : str) :
  existsb (N.eqb c) (a0 :: k0) = false ->
  Re.is_word uni_alnum c = false ->
  W (a0 :: k0) prev (a ++ c :: b) = W (a0 :: k0) prev a.
Proof.
  intros Hc Hw. unfold spec_whole_word_at.
  destruct (startswith a (a0 :: k0)) eqn:E.
  - rewrite (startswith_weaken _ _ (c :: b) E).
    apply startswith_split in E.
    set (a2 := skipn (length (a0 :: k0)) a) in *.
    rewrite E, <- app_assoc, skipn_app, skipn_all, Nat.sub_diag.
    change (skipn 0 (a2 ++ c :: b)) with (a2 ++ c :: b).
    change ([] ++ a2 ++ c :: b) with (a2 ++ c :: b).
    f_equal. f_equal.
    destruct a2 as [|d a2]; [|reflexivity].
    simpl. exact Hw.
  - destruct (startswith (a ++ c :: b) (a0 :: k0)) eqn:E2; [|reflexivity].
    apply startswith_before in E2; [congruence|exact Hc].
Qed.

Lemma R_split (a0 : codepoint) (k0 v : str) (c : codepoint) :
  existsb (N.eqb c) (a0 :: k0) = false ->
  Re.is_word uni_alnum c = false ->
  forall n a b prev,
    length a <= n ->
    R (a0 :: k0) v 0 prev (a ++ c :: b)
    = R (a0 :: k0) v 0 prev a ++ c :: R (a0 :: k0) v 0 None b.
Proof.
  intros Hc Hw.
  assert (Hb : forall b, R (a0 :: k0) v 0 (Some c) b
                         = R (a0 :: k0) v 0 None b).
  { intros b. apply R_prev. simpl. exact Hw. }
  assert (Hnil : forall prev b,
             R (a0 :: k0) v 0 prev ([] ++ c :: b)
             = R (a0 :: k0) v 0 prev [] ++ c :: R (a0 :: k0) v 0 None b).
  { intros prev b.
    assert (E : W (a0 :: k0) prev ([] ++ c :: b) = false).
    { rewrite W_split by assumption.
      unfold spec_whole_word_at. reflexivity. }
    simpl app in *. rewrite (R_copy uni_alnum _ _ _ _ _ E), Hb.
    reflexivity. }
  induction n as [|n IH]; intros a b prev Hlen.
  - destruct a; [apply Hnil|simpl in Hlen; lia].
  - destruct a as [|x a]; [apply Hnil|].
    pose proof (W_split a0 k0 prev c (x :: a) b Hc Hw) as HW.
    destruct (W (a0 :: k0) prev (x :: a)) eqn:E.
    + pose proof (startswith_split _ _ (W_startswith _ _ _ _ E)) as Ea.
      set (a2 := skipn (length (a0 :: k0)) (x :: a)) in *.
      assert (Hl : length a2 <= n).
      { assert (L : length (x :: a) = length ((a0 :: k0) ++ a2))
          by (rewrite <- Ea; reflexivity).
        rewrite length_app in L. simpl in L, Hlen. lia. }
      rewrite Ea in E, HW |- *.
      rewrite <- app_assoc in HW |- *.
      rewrite (R_match uni_alnum _ _ _ _ _ HW),
              (R_match uni_alnum _ _ _ _ _ E).
      rewrite (IH a2 b _ Hl). now rewrite app_assoc.
    + change ((x :: a) ++ c :: b) with (x :: (a ++ c :: b)) in *.
      rewrite (R_copy uni_alnum _ _ _ _ _ HW),
              (R_copy uni_alnum _ _ _ _ _ E).
      rewrite IH by (simpl in Hlen; lia). reflexivity.
Qed.

Lemma spec_expand_split (m : mapping) (c : codepoint) :
  Re.is_word uni_alnum c = false ->
  forallb (fun k => negb (Nat.eqb (length k) 0)
                    && negb (existsb (N.eqb c) k)) (map fst m) = true ->
  forall a b,
    spec_expand_whole_word uni_alnum m (a ++ c :: b)
    = spec_expand_whole_word uni_alnum m a
      ++ c :: spec_expand_whole_word uni_alnum m b.
Proof.
  intros Hw.
  induction m as [|[k v] m IH]; intros H a b; [reflexivity|].
  simpl in H. apply andb_true_iff in H as [Hk Hm].
  apply andb_true_iff in Hk as [Hne Hc]. apply negb_true_iff in Hc.
  destruct k as [|a0 k0]; [discriminate Hne|].
  cbn [spec_expand_whole_word].
  rewrite (R_split a0 k0 v c Hc Hw (length a) a b None (le_n _)).
  now apply IH.
Qed.

Lemma spec_expand_no_substring (m : mapping) (t : str) :
  forallb (fun k => negb (contains t k)) (map fst m) = true ->
  spec_expand_whole_word uni_alnum m t = t.
Proof.
  intros H. apply spec_expand_absent. intros k Hk.
  rewrite forallb_forall in H. specialize (H k Hk).
  apply negb_true_iff in H.
  destruct (has_whole_word uni_alnum k None t) eqn:E; [|reflexivity].
  apply has_whole_word_contains in E. congruence.
Qed.

End WholeWordSplit.

(** X8: on the notebook's abbreviations the loop is idempotent: run on its
    own result it returns that result again, for every text. *)
Theorem expand_abbreviations_idempotent :
  forall (uni_alnum : codepoint -> bool) (t : str),
    exists r,
      expand_abbreviations uni_alnum abbreviations t = Some r
      /\ expand_abbreviations uni_alnum abbreviations r = Some r.
Proof.
  intros uni_alnum t.
  assert (Hsep : word_separated_mapping uni_alnum abbreviations = true)
    by (vm_compute; reflexivity).
  destruct (word_separated_mapping_spec uni_alnum _ Hsep) as [Hplain Hkeys].
  exists (spec_expand_whole_word uni_alnum abbreviations t).
  split; [now apply expand_plain|].
  rewrite (expand_plain uni_alnum abbreviations Hplain). f_equal.
  apply spec_expand_absent. intros k Hk.
  now apply spec_expand_kills.
Qed.

(** X9: whatever the text, the result of the loop has no whole-word
    occurrence of ASAP or of I'm left. *)
Theorem expand_abbreviations_removes_abbreviations :
  forall (uni_alnum : codepoint -> bool) (t : str),
    exists r,
      expand_abbreviations uni_alnum abbreviations t = Some r
      /\ has_whole_word uni_alnum (of_ascii "ASAP") None r = false
      /\ has_whole_word uni_alnum (of_ascii "I'm") None r = false.
Proof.
  intros uni_alnum t.
  assert (Hsep : word_separated_mapping uni_alnum abbreviations = true)
    by (vm_compute; reflexivity).
  destruct (word_separated_mapping_spec uni_alnum _ Hsep) as [Hplain Hkeys].
  exists (spec_expand_whole_word uni_alnum abbreviations t).
  split; [now apply expand_plain|].
  split; apply spec_expand_kills; auto; simpl; auto.
Qed.

(** X10: a text that contains none of the abbreviations, not even inside a
    longer word, is returned unchanged, for every mapping of plain
    entries. *)
Theorem expand_abbreviations_no_match :
  forall (uni_alnum : codepoint -> bool) (m : mapping) (t : str),
    forallb (plain_entry uni_alnum) m = true ->
    forallb (fun k => negb (Str.contains t k)) (map fst m) = true ->
    expand_abbreviations uni_alnum m t = Some t.
Proof.
  intros uni_alnum m t Hplain H.
  rewrite (expand_plain uni_alnum m Hplain). f_equal.
  now apply spec_expand_no_substring.
Qed.

Lemma expand_abbreviations_no_match_witness :
  forallb (plain_entry (fun _ => false)) abbreviations = true
  /\ forallb (fun k => negb (Str.contains (of_ascii "running runner runs") k))
             (map fst abbreviations) = true
  /\ expand_abbreviations (fun _ => false) abbreviations
       (of_ascii "running runner runs")
     = Some (of_ascii "running runner runs").
Proof.
  split; [reflexivity|]. split; [reflexivity|].
  apply expand_abbreviations_no_match; reflexivity.
Defined.

(** X11: a non-word character that occurs in no abbreviation splits the
    work of the loop: the parts before and after it are expanded
    independently.  With the notebook's abbreviations every space does
    so. *)
Theorem expand_abbreviations_splits :
  forall (uni_alnum : codepoint -> bool) (m : mapping) (c : codepoint),
    forallb (plain_entry uni_alnum) m = true ->
    Re.is_word uni_alnum c = false ->
    forallb (fun k => negb (existsb (N.eqb c) k)) (map fst m) = true ->
    forall a b : str,
      exists a' b',
        expand_abbreviations uni_alnum m a = Some a'
        /\ expand_abbreviations uni_alnum m b = Some b'
        /\ expand_abbreviations uni_alnum m (a ++ c :: b)
           = Some (a' ++ c :: b').
Proof.
  intros uni_alnum m c Hplain Hw Hc a b.
  exists (spec_expand_whole_word uni_alnum m a),
         (spec_expand_whole_word uni_alnum m b).
  rewrite !(expand_plain uni_alnum m Hplain).
  repeat split. f_equal.
  apply spec_expand_split; [exact Hw|].
  apply forallb_forall. intros k Hk.
  rewrite forallb_forall in Hc. rewrite (Hc k Hk), andb_true_r.
  apply in_map_iff in Hk as ([k0 v0] & <- & He).
  rewrite forallb_forall in Hplain. specialize (Hplain _ He).
  unfold plain_entry in Hplain.
  apply andb_true_iff in Hplain as [Hplain _].
  destruct (plain_key_parts uni_alnum _ Hplain) as (_ & _ & _ & n & Hn).
  simpl fst in *. destruct k0; [discriminate Hn|reflexivity].
Qed.

Lemma expand_abbreviations_splits_witness :
  forallb (plain_entry (fun _ => false)) abbreviations = true
  /\ Re.is_word (fun _ => false) 32%N = false
  /\ forallb (fun k => negb (existsb (N.eqb 32) k)) (map fst abbreviations)
     = true
  /\ exists a' b',
       expand_abbreviations (fun _ => false) abbreviations (of_ascii "I'm")
       = Some a'
       /\ expand_abbreviations (fun _ => false) abbreviations
            (of_ascii "late ASAP") = Some b'
       /\ expand_abbreviations (fun _ => false) abbreviations
            (of_ascii "I'm" ++ 32%N :: of_ascii "late ASAP")
          = Some (a' ++ 32%N :: b').
Proof.
  split; [reflexivity|]. split; [reflexivity|]. split; [reflexivity|].
  apply (expand_abbreviations_splits (fun _ => false) abbreviations 32%N);
    reflexivity.
Defined.

(** * Further properties of the character-set cleaner *)

(** X12: the cleaner works character by character: the result for a
    concatenation is the concatenation of the results. *)
Theorem preprocess_for_sentiment_app :
  forall a b : str,
    preprocess_for_sentiment (a ++ b)
    = preprocess_for_sentiment a ++ preprocess_for_sentiment b.
Proof.
  intros a b. rewrite !preprocess_filter. apply filter_app.
Qed.

(** X13: an allowed character stays where it is; in particular the
    cleaner keeps the decimal digits 0 to 9, although the comment in the
    source speaks of removing numbers. *)
Theorem preprocess_for_sentiment_keeps_digits :
  (forall (c : codepoint) (a b : str),
     allowed c = true ->
     preprocess_for_sentiment (a ++ c :: b)
     = preprocess_for_sentiment a ++ c :: preprocess_for_sentiment b)
  /\ (forall c : codepoint, (48 <= c <= 57)%N -> allowed c = true).
Proof.
  split.
  - intros c a b Hc. rewrite !preprocess_filter, filter_app.
    simpl. now rewrite Hc.
  - intros c Hc. unfold allowed, between.
    destruct (N.leb_spec 48 c), (N.leb_spec c 57); try lia.
Qed.

Lemma preprocess_for_sentiment_keeps_digits_witness :
  (48 <= 55 <= 57)%N
  /\ preprocess_for_sentiment (of_ascii "gym " ++ 55%N :: of_ascii "!")
     = preprocess_for_sentiment (of_ascii "gym ")
       ++ 55%N :: preprocess_for_sentiment (of_ascii "!").
Proof.
  assert (H : (48 <= 55 <= 57)%N) by lia.
  split; [exact H|].
  apply (proj1 preprocess_for_sentiment_keeps_digits).
  apply (proj2 preprocess_for_sentiment_keeps_digits). exact H.
Defined.

(** * The size of the normaliser's result *)

Lemma replace_from_length (a : codepoint) (k0 v : str) :
  forall (n : nat) (t : str),
    length t <= n ->
    length (Str.replace_from (a :: k0) v 0 t) * length (a :: k0)
    <= length t * Nat.max (length (a :: k0)) (length v).
Proof.
  induction n as [|n IH]; intros t Hlen.
  - destruct t; [simpl; lia|simpl in Hlen; lia].
  - destruct t as [|c t]; [simpl; lia|].
    destruct (Str.startswith (c :: t) (a :: k0)) eqn:E.
    + apply startswith_split in E.
      set (t2 := skipn (length (a :: k0)) (c :: t)) in *.
      assert (L : length (c :: t) = length (a :: k0) + length t2).
      { rewrite <- length_app, <- E. reflexivity. }
      assert (Hl : length t2 <= n) by (simpl in L, Hlen; lia).
      specialize (IH t2 Hl).
      rewrite E at 1. rewrite replace_from_match, length_app, L.
      nia.
    + rewrite replace_from_copy by exact E.
      assert (Hl : length t <= n) by (simpl in Hlen; lia).
      specialize (IH t Hl).
      change (length (c :: Str.replace_from (a :: k0) v 0 t))
        with (S (length (Str.replace_from (a :: k0) v 0 t))).
      change (length (c :: t)) with (S (length t)).
      nia.
Qed.

(** X14: with the notebook's mapping the result is at most four times as
    long as the text; the text كده reaches this bound. *)
Theorem convert_to_msa_length :
  (forall t : str,
     length (convert_to_msa dialect_mapping t) <= 4 * length t)
  /\ length (convert_to_msa dialect_mapping [0x643; 0x62F; 0x647]%N) = 12.
Proof.
  split; [|reflexivity].
  intros t. unfold dialect_mapping. cbn [convert_to_msa]. unfold Str.replace.
  set (t1 := Str.replace_from _ _ 0 t).
  set (t2 := Str.replace_from _ _ 0 t1).
  set (t3 := Str.replace_from _ _ 0 t2).
  set (t4 := Str.replace_from _ _ 0 t3).
  set (t5 := Str.replace_from _ _ 0 t4).
  assert (H1 := replace_from_length _ _ _ _ _ (le_n (length t)) : _ t1 * _ <= _).
  assert (H2 := replace_from_length _ _ _ _ _ (le_n (length t1)) : _ t2 * _ <= _).
  assert (H3 := replace_from_length _ _ _ _ _ (le_n (length t2)) : _ t3 * _ <= _).
  assert (H4 := replace_from_length _ _ _ _ _ (le_n (length t3)) : _ t4 * _ <= _).
  assert (H5 := replace_from_length _ _ _ _ _ (le_n (length t4)) : _ t5 * _ <= _).
  simpl in H1, H2, H3, H4, H5.
  lia.
Qed.
